(** * Dirichlet-process-discrete component model (dpd.hpp)

    A shallow embedding of [include/distributions/models/dpd.hpp] and the
    properties of its sufficient statistics, scorer, sampler and cached
    mixture.

    Conventions of the embedding.
    - [float] is embedded in exact arithmetic as a real number ([R]), and
      a second time with the infinities and NaN ([Ieee.binary32]) where a
      result turns on them; [uint32_t] counts are binary naturals with the wrap-around at 2^32
      written out; [Value] (a [uint32_t] used only as an index) and [size_t]
      indices are naturals.
    - [std::vector<T>] is [list T], read with [!!] and written with
      [<[i:=x]>]; an access outside the array has no defined result in C++
      and is the failure [OutOfBounds] here.
    - A method [R C::f(args..., rng_t &)] becomes a function of the
      arguments, the object and the generator state that returns
      [result (R * C * rng_t)], with [R = ()] for [void]; a [const] method
      does not return the object; a buffer passed by non-const reference
      is returned like the object.  A failed assertion aborts the call:
      [Fail AssertionFailed]. *)

From Stdlib Require Import Reals Lra Lia NArith.
From stdpp Require Import base option numbers list gmap fin_maps.

(** ** Outcomes of a call *)

Inductive failure : Set :=
| AssertionFailed   (* a DIST_ASSERT* fired *)
| OutOfBounds       (* an array was indexed outside its bounds *)
| MissingKey        (* the counter was asked to remove an absent key *)
| SizeUnderflow.    (* size() - 1 on an empty array *)

Inductive result (A : Type) : Type :=
| Ok (a : A)
| Fail (e : failure).
Arguments Ok {A} a.
Arguments Fail {A} e.

#[global] Instance result_ret : MRet result := @Ok.
#[global] Instance result_bind : MBind result :=
  λ A B f m, match m with Ok a => f a | Fail e => Fail e end.

(** ** Machine integers *)

Abbreviation Value := nat (only parsing).   (* typedef uint32_t Value *)
Abbreviation count_t := N (only parsing).   (* typedef uint32_t count_t *)
Abbreviation float := R (only parsing).
Abbreviation VectorFloat := (list R) (only parsing).

Definition wrap32 (n : N) : N := (n mod 2 ^ 32)%N.

(** [uint32_t(n)] for a [size_t] n, as in [const Value dim = betas.size()]. *)
Definition to_Value (n : nat) : Value := N.to_nat (wrap32 (N.of_nat n)).

(** Conversion of a count to [float] in [float + count_t]. *)
Definition of_count (c : count_t) : float := IZR (Z.of_N c).

(** ** Dense arrays *)

Definition vec_get {A} (v : list A) (i : nat) : result A :=
  match v !! i with
  | Some x => Ok x
  | None => Fail OutOfBounds
  end.

Definition vec_set {A} (v : list A) (i : nat) (x : A) : result (list A) :=
  match v !! i with
  | Some _ => Ok (<[i:=x]> v)
  | None => Fail OutOfBounds
  end.

(** [v.back()] *)
Definition vec_back {A} (v : list A) : result A :=
  match last v with
  | Some x => Ok x
  | None => Fail OutOfBounds
  end.

(** [v.size() - 1] in [size_t]: on an empty array the difference wraps to
    [SIZE_MAX], which no array index or array length can be. *)
Definition size_minus_one (n : nat) : result nat :=
  match n with
  | O => Fail SizeUnderflow
  | S k => Ok k
  end.

(** [for (i = start; i < start + count; ++i) body], threading the state. *)
Fixpoint for_range {St : Type} (start count : nat)
    (body : nat → St → result St) (s : St) : result St :=
  match count with
  | O => Ok s
  | S k => s' ← body start s; for_range (S start) k body s'
  end.

(** [for (auto x : xs) body], threading the state. *)
Fixpoint for_each {X St : Type} (xs : list X)
    (body : X → St → result St) (s : St) : result St :=
  match xs with
  | [] => Ok s
  | x :: xs' => s' ← body x s; for_each xs' body s'
  end.

(** ** External collaborators

    The generator, the scalar approximations and the build's debug level are
    not part of dpd.hpp; the model is parametric in them. *)
Class Collaborators : Type := {
  rng_t : Type;
  (** compile-time debug level that gates DIST_ASSERT1 and DIST_ASSERT2 *)
  DIST_DEBUG_LEVEL : nat;
  (** special.hpp *)
  fast_log : float → float;
  fast_lgamma : float → float;
  (** random.hpp: [sample_dirichlet(rng, n, buf, buf)] overwrites the
      concentration buffer with probabilities, in place *)
  sample_dirichlet : rng_t → VectorFloat → VectorFloat * rng_t;
  (** random.hpp: [sample_discrete(rng, n, probs)] *)
  sample_discrete : rng_t → VectorFloat → nat * rng_t;
}.

Section Assertions.
Context `{Collaborators}.

(** Modelled from the spec: common.hpp is not among the sources.  The spec
    (section 7) gives contract checks two severities, always-checked and
    debug-only (elided in performance builds); a violation is fatal to the
    call. *)
Definition DIST_ASSERT (cond : bool) : result () :=
  if cond then Ok () else Fail AssertionFailed.

(** Modelled from the spec: a check that is compiled in only when the
    build's debug level reaches [level]. *)
Definition DIST_ASSERT_ (level : nat) (cond : bool) : result () :=
  if (level <=? DIST_DEBUG_LEVEL)%nat then DIST_ASSERT cond else Ok ().

(** Modelled from the spec: the debug-only checks of levels 1 and 2. *)
Definition DIST_ASSERT1 := DIST_ASSERT_ 1.
Definition DIST_ASSERT2 := DIST_ASSERT_ 2.
End Assertions.

(** ** Vector kernels *)

(** Modelled from the spec: vector_math.hpp is not among the sources.
    The spec (section 6): elementwise natural log over a dense buffer, in
    place.  The first [size] entries are replaced by their logarithm. *)
Definition vector_log `{Collaborators} (size : nat) (data : VectorFloat)
    : result VectorFloat :=
  for_range 0 size
    (λ i buf, x ← vec_get buf i; vec_set buf i (fast_log x)) data.

(** Modelled from the spec: vector_math.hpp is not among the sources.
    The spec (section 6): fused accumulate [accum[i] += a[i] - b[i]] over
    dense buffers, for [i < size]. *)
Definition vector_add_subtract (size : nat) (accum a b : VectorFloat)
    : result VectorFloat :=
  for_range 0 size
    (λ i acc,
       x ← vec_get acc i;
       ai ← vec_get a i;
       bi ← vec_get b i;
       vec_set acc i (x + (ai - bi))%R) accum.

(** ** Sparse histogram *)

Module SparseCounter.
(** Modelled from the spec: sparse_counter.hpp is not among the sources.
    The spec (section 6) gives the histogram [add(value)], which returns
    the new count, [remove(value)], which returns the new count and fails
    if the key is absent, [get_count], [get_total], and iteration over the
    (value, count) pairs of the present keys only.  Counts have the width
    of [count_t]. *)
Record t : Type := mk {
  count : gmap nat N;   (* present keys only *)
  total : N;
}.

(** Modelled from the spec: [clear()], the histogram of a group whose
    statistics were cleared (section 4.1). *)
Definition clear : t := mk ∅ 0%N.

(** Modelled from the spec: [get_count(value)]; an absent key counts 0. *)
Definition get_count (c : t) (key : Value) : count_t :=
  default 0%N (count c !! key).

(** Modelled from the spec: [get_total()], the sum of the counts. *)
Definition get_total (c : t) : count_t := total c.

(** Modelled from the spec: [add(value)] increments the count of the key
    and the total, in [count_t], and returns the new count. *)
Definition add (c : t) (key : Value) : count_t * t :=
  let n := wrap32 (get_count c key + 1) in
  (n, mk (<[key:=n]> (count c)) (wrap32 (total c + 1))).

(** Modelled from the spec: [remove(value)] is the inverse of [add]; it
    fails if the key is absent, and a key whose count reaches 0 is no
    longer present. *)
Definition remove (c : t) (key : Value) : result (count_t * t) :=
  match count c !! key with
  | None => Fail MissingKey
  | Some old =>
      let n := wrap32 (old + (2 ^ 32 - 1)) in   (* old - 1 in uint32_t *)
      let count' :=
        if (n =? 0)%N then delete key (count c) else <[key:=n]> (count c) in
      Ok (n, mk count' (wrap32 (total c + (2 ^ 32 - 1))))
  end.

(** Modelled from the spec: the pairs that [for (auto i : counts)] visits,
    those of the present keys. *)
Definition items (c : t) : list (Value * count_t) := map_to_list (count c).
End SparseCounter.

(** ** Shared *)

Module Shared.
Record t : Type := mk {
  gamma : float;
  alpha : float;
  beta0 : float;
  betas : list float;   (* dense *)
}.
End Shared.

(** ** Group *)

Module Group.
Record t : Type := mk { counts : SparseCounter.t }.

Section defs.
Context `{Collaborators}.

Definition init (_ : Shared.t) (_ : t) (rng : rng_t)
    : result (() * t * rng_t) :=
  Ok ((), mk SparseCounter.clear, rng).

Definition add_value (_ : Shared.t) (value : Value) (g : t) (rng : rng_t)
    : result (() * t * rng_t) :=
  let '(_, c) := SparseCounter.add (counts g) value in
  Ok ((), mk c, rng).

Definition remove_value (_ : Shared.t) (value : Value) (g : t)
    (rng : rng_t) : result (() * t * rng_t) :=
  '(_, c) ← SparseCounter.remove (counts g) value;
  Ok ((), mk c, rng).
End defs.
End Group.

(** ** Sampler *)

Module Sampler.
Record t : Type := mk { probs : list float }.   (* dense *)

Section defs.
Context `{Collaborators}.

(** The contents of [probs] when [init] reaches its call of
    [sample_dirichlet]. *)
Definition concentrations (shared : Shared.t) (group : Group.t)
    : result VectorFloat :=
  (* probs.clear(); for (float beta : shared.betas) probs.push_back(..) *)
  let probs0 := (λ beta, beta * Shared.alpha shared)%R
                  <$> Shared.betas shared in
  probs1 ← for_each (SparseCounter.items (Group.counts group))
    (λ i probs,
       x ← vec_get probs i.1;
       vec_set probs i.1 (x + of_count i.2)%R) probs0;
  Ok (probs1 ++ [(Shared.beta0 shared * Shared.alpha shared)%R]).

Definition init (shared : Shared.t) (group : Group.t) (_ : t)
    (rng : rng_t) : result (() * t * rng_t) :=
  buf ← concentrations shared group;
  let '(probs', rng') := sample_dirichlet rng buf in
  Ok ((), mk probs', rng').

Definition eval (_ : Shared.t) (s : t) (rng : rng_t)
    : result (Value * rng_t) :=
  let '(i, rng') := sample_discrete rng (probs s) in
  Ok (to_Value i, rng').
End defs.
End Sampler.

(** ** Scorer *)

Module Scorer.
Record t : Type := mk { scores : list float }.   (* dense *)

Section defs.
Context `{Collaborators}.

Definition init (shared : Shared.t) (group : Group.t) (s : t)
    (rng : rng_t) : result (() * t * rng_t) :=
  let size := length (Shared.betas shared) in
  let total := SparseCounter.get_total (Group.counts group) in
  let scores0 := resize size 0%R (scores s) in
  let betas_scale :=
    (Shared.alpha shared / (Shared.alpha shared + of_count total))%R in
  scores1 ← for_range 0 size
    (λ i sc,
       beta ← vec_get (Shared.betas shared) i;
       vec_set sc i (betas_scale * beta)%R) scores0;
  let counts_scale := (1 / (Shared.alpha shared + of_count total))%R in
  scores2 ← for_each (SparseCounter.items (Group.counts group))
    (λ i sc,
       let value := i.1 in
       DIST_ASSERT (value <? size)%nat;;
       x ← vec_get sc value;
       vec_set sc value (x + counts_scale * of_count i.2)%R) scores1;
  Ok ((), mk scores2, rng).

Definition eval (_ : Shared.t) (value : Value) (s : t) (rng : rng_t)
    : result (float * rng_t) :=
  let size := length (scores s) in
  DIST_ASSERT (value <? size)%nat;;
  x ← vec_get (scores s) value;
  Ok (fast_log x, rng).
End defs.
End Scorer.

(** ** Mixture *)

Module Mixture.
Record t : Type := mk {
  groups : list Group.t;
  scores : list (list float);   (* dense: scores[value][groupid] *)
  scores_shift : list float;
}.

Section defs.
Context `{Collaborators}.

(** [for (value < dim) scores[value].resize(group_count)] *)
Definition resize_rows (dim group_count : nat) (sc : list (list float))
    : result (list (list float)) :=
  for_range 0 dim
    (λ value sc,
       row ← vec_get sc value;
       vec_set sc value (resize group_count 0%R row)) sc.

Definition init (shared : Shared.t) (m : t) (rng : rng_t)
    : result (() * t * rng_t) :=
  let dim := to_Value (length (Shared.betas shared)) in
  let group_count := length (groups m) in
  let shift0 := resize group_count 0%R (scores_shift m) in
  let scores0 := resize dim [] (scores m) in
  scores1 ← resize_rows dim group_count scores0;
  '(scores2, shift2) ← for_range 0 group_count
    (λ groupid '(sc, shift),
       group ← vec_get (groups m) groupid;
       sc' ← for_range 0 dim
         (λ value sc,
            beta ← vec_get (Shared.betas shared) value;
            row ← vec_get sc value;
            row' ← vec_set row groupid
              (Shared.alpha shared * beta
               + of_count
                   (SparseCounter.get_count (Group.counts group) value))%R;
            vec_set sc value row') sc;
       shift' ← vec_set shift groupid
         (Shared.alpha shared
          + of_count (SparseCounter.get_total (Group.counts group)))%R;
       Ok (sc', shift')) (scores1, shift0);
  shift3 ← vector_log group_count shift2;
  scores3 ← for_range 0 dim
    (λ value sc,
       row ← vec_get sc value;
       row' ← vector_log group_count row;
       vec_set sc value row') scores2;
  Ok ((), mk (groups m) scores3 shift3, rng).

Definition add_group (shared : Shared.t) (m : t) (rng : rng_t)
    : result (() * t * rng_t) :=
  let dim := to_Value (length (Shared.betas shared)) in
  let group_count := (length (groups m) + 1)%nat in
  (* a default-constructed Group, cleared by init on the next line *)
  let groups0 :=
    resize group_count (Group.mk SparseCounter.clear) (groups m) in
  back ← vec_back groups0;
  '(_, back', rng') ← Group.init shared back rng;
  groups1 ← vec_set groups0 (length groups0 - 1) back';
  let shift1 := resize group_count 0%R (scores_shift m) in
  scores1 ← resize_rows dim group_count (scores m);
  Ok ((), mk groups1 scores1 shift1, rng').

Definition remove_group (shared : Shared.t) (groupid : nat) (m : t)
    : result (() * t) :=
  DIST_ASSERT1 (groupid <? length (groups m))%nat;;
  let dim := to_Value (length (Shared.betas shared)) in
  group_count ← size_minus_one (length (groups m));
  '(groups1, scores1, shift1) ←
    (if decide (groupid ≠ group_count) then
       (* std::swap(groups[groupid], groups.back()) *)
       a ← vec_get (groups m) groupid;
       b ← vec_back (groups m);
       gs ← vec_set (groups m) groupid b;
       gs' ← vec_set gs (length gs - 1) a;
       last_shift ← vec_back (scores_shift m);
       shift' ← vec_set (scores_shift m) groupid last_shift;
       sc' ← for_range 0 dim
         (λ value sc,
            vscores ← vec_get sc value;
            last_score ← vec_back vscores;
            vscores' ← vec_set vscores groupid last_score;
            vec_set sc value vscores') (scores m);
       Ok (gs', sc', shift')
     else Ok (groups m, scores m, scores_shift m));
  let groups2 :=
    resize group_count (Group.mk SparseCounter.clear) groups1 in
  let shift2 := resize group_count 0%R shift1 in
  scores2 ← resize_rows dim group_count scores1;
  Ok ((), mk groups2 scores2 shift2).

Definition add_value (shared : Shared.t) (groupid : nat) (value : Value)
    (m : t) (rng : rng_t) : result (() * t * rng_t) :=
  DIST_ASSERT1 (groupid <? length (groups m))%nat;;
  DIST_ASSERT1 (value <? length (Shared.betas shared))%nat;;
  group ← vec_get (groups m) groupid;
  let '(count, counts') := SparseCounter.add (Group.counts group) value in
  groups1 ← vec_set (groups m) groupid (Group.mk counts');
  let count_sum := SparseCounter.get_total counts' in
  beta ← vec_get (Shared.betas shared) value;
  row ← vec_get (scores m) value;
  row' ← vec_set row groupid
    (fast_log (Shared.alpha shared * beta + of_count count)%R);
  scores1 ← vec_set (scores m) value row';
  shift1 ← vec_set (scores_shift m) groupid
    (fast_log (Shared.alpha shared + of_count count_sum)%R);
  Ok ((), mk groups1 scores1 shift1, rng).

Definition remove_value (shared : Shared.t) (groupid : nat)
    (value : Value) (m : t) (rng : rng_t) : result (() * t * rng_t) :=
  DIST_ASSERT2 (groupid <? length (groups m))%nat;;
  DIST_ASSERT1 (value <? length (Shared.betas shared))%nat;;
  group ← vec_get (groups m) groupid;
  '(count, counts') ← SparseCounter.remove (Group.counts group) value;
  groups1 ← vec_set (groups m) groupid (Group.mk counts');
  let count_sum := SparseCounter.get_total counts' in
  beta ← vec_get (Shared.betas shared) value;
  row ← vec_get (scores m) value;
  row' ← vec_set row groupid
    (fast_log (Shared.alpha shared * beta + of_count count)%R);
  scores1 ← vec_set (scores m) value row';
  shift1 ← vec_set (scores_shift m) groupid
    (fast_log (Shared.alpha shared + of_count count_sum)%R);
  Ok ((), mk groups1 scores1 shift1, rng).

Definition score_value (shared : Shared.t) (value : Value)
    (scores_accum : VectorFloat) (m : t) (rng : rng_t)
    : result (() * VectorFloat * rng_t) :=
  DIST_ASSERT1 (value <? length (Shared.betas shared))%nat;;
  (if (2 <=? DIST_DEBUG_LEVEL)%nat
   then DIST_ASSERT (length scores_accum =? length (groups m))%nat
   else Ok ());;
  let group_count := length (groups m) in
  row ← vec_get (scores m) value;
  accum' ← vector_add_subtract group_count scores_accum row
             (scores_shift m);
  Ok ((), accum', rng).
End defs.
End Mixture.

(** ** Free operations *)

Section free_operations.
Context `{Collaborators}.

Definition sample_value (shared : Shared.t) (group : Group.t)
    (rng : rng_t) : result (Value * rng_t) :=
  let sampler := Sampler.mk [] in
  '(_, sampler', rng') ← Sampler.init shared group sampler rng;
  Sampler.eval shared sampler' rng'.

Definition score_value (shared : Shared.t) (group : Group.t)
    (value : Value) (rng : rng_t) : result (float * rng_t) :=
  let scorer := Scorer.mk [] in
  '(_, scorer', rng') ← Scorer.init shared group scorer rng;
  Scorer.eval shared value scorer' rng'.

Definition score_group (shared : Shared.t) (group : Group.t)
    (rng : rng_t) : result (float * rng_t) :=
  let size := length (Shared.betas shared) in
  let total := SparseCounter.get_total (Group.counts group) in
  score ← for_each (SparseCounter.items (Group.counts group))
    (λ i score,
       let value := i.1 in
       DIST_ASSERT (value <? size)%nat;;
       beta ← vec_get (Shared.betas shared) value;
       let prior_i := (beta * Shared.alpha shared)%R in
       Ok (score + (fast_lgamma (prior_i + of_count i.2)
                    - fast_lgamma prior_i))%R) 0%R;
  Ok ((score + (fast_lgamma (Shared.alpha shared)
                - fast_lgamma (Shared.alpha shared + of_count total)))%R,
      rng).
End free_operations.

(** ** Floats that are not numbers

    Above, a [float] is a real number.  A binary32 also holds the two
    infinities and NaN, and [score_group] subtracts two values of
    [fast_lgamma], a function with poles.  Where a result turns on those
    values the operation is embedded a second time, over floats that keep
    them: the finite values stay in exact arithmetic (with one zero), the
    infinities and NaN follow IEEE 754. *)

Module Ieee.
Inductive binary32 : Type :=
| Finite (x : R)
| PlusInfinity
| MinusInfinity
| NaN.

Definition is_finite (x : binary32) : bool :=
  match x with
  | Finite _ => true
  | _ => false
  end.

(** [-x] *)
Definition neg (x : binary32) : binary32 :=
  match x with
  | Finite a => Finite (- a)
  | PlusInfinity => MinusInfinity
  | MinusInfinity => PlusInfinity
  | NaN => NaN
  end.

(** [x + y]: the sum of the two opposite infinities is NaN. *)
Definition add (x y : binary32) : binary32 :=
  match x with
  | Finite a =>
      match y with
      | Finite b => Finite (a + b)
      | _ => y
      end
  | PlusInfinity =>
      match y with
      | MinusInfinity | NaN => NaN
      | _ => PlusInfinity
      end
  | MinusInfinity =>
      match y with
      | PlusInfinity | NaN => NaN
      | _ => MinusInfinity
      end
  | NaN => NaN
  end.

(** [x - y] *)
Definition sub (x y : binary32) : binary32 := add x (neg y).

(** The product of an infinity and the finite [a]: NaN for [a = 0], else
    the infinity of the product's sign. *)
Definition scale_infinity (a : R) (positive : bool) : binary32 :=
  if Req_EM_T a 0 then NaN
  else if Rlt_dec 0 a
       then (if positive then PlusInfinity else MinusInfinity)
       else (if positive then MinusInfinity else PlusInfinity).

(** [x * y] *)
Definition mul (x y : binary32) : binary32 :=
  match x with
  | Finite a =>
      match y with
      | Finite b => Finite (a * b)
      | PlusInfinity => scale_infinity a true
      | MinusInfinity => scale_infinity a false
      | NaN => NaN
      end
  | PlusInfinity =>
      match y with
      | Finite b => scale_infinity b true
      | PlusInfinity => PlusInfinity
      | MinusInfinity => MinusInfinity
      | NaN => NaN
      end
  | MinusInfinity =>
      match y with
      | Finite b => scale_infinity b false
      | PlusInfinity => MinusInfinity
      | MinusInfinity => PlusInfinity
      | NaN => NaN
      end
  | NaN => NaN
  end.

(** Conversion of a count to [float] in [float + count_t]. *)
Definition of_count (c : count_t) : binary32 := Finite (IZR (Z.of_N c)).

Module Shared.
Record t : Type := mk {
  gamma : binary32;
  alpha : binary32;
  beta0 : binary32;
  betas : list binary32;   (* dense *)
}.
End Shared.

Section operations.
Context {rng_t : Type}.
(** special.hpp, on floats that need not be numbers *)
Variable fast_lgamma : binary32 → binary32.

(** [Group::init]: the hyperparameters are not read. *)
Definition Group_init (_ : Shared.t) (_ : Group.t) (rng : rng_t)
    : result (() * Group.t * rng_t) :=
  Ok ((), Group.mk SparseCounter.clear, rng).

Definition score_group (shared : Shared.t) (group : Group.t)
    (rng : rng_t) : result (binary32 * rng_t) :=
  let size := length (Shared.betas shared) in
  let total := SparseCounter.get_total (Group.counts group) in
  score ← for_each (SparseCounter.items (Group.counts group))
    (λ i score,
       let value := i.1 in
       DIST_ASSERT (value <? size)%nat;;
       beta ← vec_get (Shared.betas shared) value;
       let prior_i := mul beta (Shared.alpha shared) in
       Ok (add score (sub (fast_lgamma (add prior_i (of_count i.2)))
                          (fast_lgamma prior_i)))) (Finite 0);
  Ok (add score (sub (fast_lgamma (Shared.alpha shared))
                     (fast_lgamma (add (Shared.alpha shared)
                                       (of_count total)))),
      rng).
End operations.
End Ieee.

(** ** Vocabulary of the properties *)

(** The array after a loop whose body rewrites cell [i] alone. *)
Definition map_range {A : Type} (h : nat → A → A) (start count : nat)
    (l : list A) : list A :=
  imap (λ i x, if decide (start ≤ i < start + count) then h i x else x) l.

(** Two runs of a call from the generator states [rng1] and [rng2] end the
    same way: both fail alike, or both return the same value and hand back
    the generator state they were given. *)
Definition same_outcome `{Collaborators} {A} (rng1 rng2 : rng_t)
    (r1 r2 : result (A * rng_t)) : Prop :=
  match r1, r2 with
  | Ok (a1, rng1'), Ok (a2, rng2') => a1 = a2 ∧ rng1' = rng1 ∧ rng2' = rng2
  | Fail e1, Fail e2 => e1 = e2
  | _, _ => False
  end.

(** [scores[value][groupid]], when both indices are within the cache. *)
Definition score_cell (m : Mixture.t) (value : Value) (groupid : nat)
    : option float :=
  row ← Mixture.scores m !! value; row !! groupid.

(** The cache has one row per value below [dim] and one column per group. *)
Definition cache_shape (shared : Shared.t) (m : Mixture.t) : Prop :=
  length (Mixture.scores m) = to_Value (length (Shared.betas shared)) ∧
  (∀ value row, Mixture.scores m !! value = Some row →
                length row = length (Mixture.groups m)) ∧
  length (Mixture.scores_shift m) = length (Mixture.groups m).

(** The closed forms the cache duplicates. *)
Definition score_of `{Collaborators} (shared : Shared.t) (beta : float)
    (group : Group.t) (value : Value) : float :=
  fast_log (Shared.alpha shared * beta
            + of_count (SparseCounter.get_count (Group.counts group) value))%R.

Definition shift_of `{Collaborators} (shared : Shared.t) (group : Group.t)
    : float :=
  fast_log (Shared.alpha shared
            + of_count (SparseCounter.get_total (Group.counts group)))%R.

(** The cache cell of value [value] and the shift entry of group [groupid]
    hold their closed forms. *)
Definition cell_consistent `{Collaborators} (shared : Shared.t)
    (m : Mixture.t) (groupid : nat) (value : Value) : Prop :=
  ∀ group beta,
    Mixture.groups m !! groupid = Some group →
    Shared.betas shared !! value = Some beta →
    score_cell m value groupid = Some (score_of shared beta group value).

Definition shift_consistent `{Collaborators} (shared : Shared.t)
    (m : Mixture.t) (groupid : nat) : Prop :=
  ∀ group,
    Mixture.groups m !! groupid = Some group →
    Mixture.scores_shift m !! groupid = Some (shift_of shared group).

(** Cache equivalence: every cell of every group holds its closed form. *)
Definition cache_consistent `{Collaborators} (shared : Shared.t)
    (m : Mixture.t) : Prop :=
  cache_shape shared m ∧
  ∀ groupid, groupid < length (Mixture.groups m) →
    shift_consistent shared m groupid ∧
    ∀ value, value < to_Value (length (Shared.betas shared)) →
      cell_consistent shared m groupid value.

(** Counts and total fit [count_t]. *)
Definition counter_in_range (c : SparseCounter.t) : Prop :=
  (∀ key, SparseCounter.get_count c key < 2 ^ 32)%N ∧
  (SparseCounter.get_total c < 2 ^ 32)%N.

(** Everything of the Mixture except cache cell [(value, groupid)], shift
    entry [groupid] and group [groupid] is the same in [m] and [m']. *)
Definition frame_of (groupid : nat) (value : Value) (m m' : Mixture.t)
    : Prop :=
  (∀ v' g', (v', g') ≠ (value, groupid) →
            score_cell m' v' g' = score_cell m v' g') ∧
  (∀ g', g' ≠ groupid →
         Mixture.scores_shift m' !! g' = Mixture.scores_shift m !! g') ∧
  (∀ g', g' ≠ groupid → Mixture.groups m' !! g' = Mixture.groups m !! g').

(** The Mixture that [remove_group] returns when [groupid] is not the
    last index. *)
Definition swap_removed (shared : Shared.t) (groupid : nat)
    (m : Mixture.t) (a b : Group.t) : Mixture.t :=
  let dim := to_Value (length (Shared.betas shared)) in
  let last := length (Mixture.groups m) - 1 in
  Mixture.mk
    (resize last (Group.mk SparseCounter.clear)
       (<[last:=a]> (<[groupid:=b]> (Mixture.groups m))))
    (map_range (λ _ row, resize last 0%R row) 0 dim
       (map_range
          (λ _ row, <[groupid:=default 0%R (row !! last)]> row) 0 dim
          (Mixture.scores m)))
    (resize last 0%R
       (<[groupid:=default 0%R (Mixture.scores_shift m !! last)]>
          (Mixture.scores_shift m))).

(** The state of the fill loop of [Mixture::init] when groups below
    [done_groups] have been written: the arrays have their final shape
    and hold, not yet logged, the closed forms of those groups. *)
Definition filled (shared : Shared.t) (groups : list Group.t)
    (done_groups : nat) (st : list (list float) * list float) : Prop :=
  let dim := to_Value (length (Shared.betas shared)) in
  length st.1 = dim ∧
  (∀ v row, st.1 !! v = Some row → length row = length groups) ∧
  length st.2 = length groups ∧
  ∀ g group, (g < done_groups)%nat → groups !! g = Some group →
    st.2 !! g =
      Some (Shared.alpha shared
            + of_count (SparseCounter.get_total (Group.counts group)))%R ∧
    ∀ v beta, (v < dim)%nat → Shared.betas shared !! v = Some beta →
      ∃ row, st.1 !! v = Some row ∧
        row !! g =
          Some (Shared.alpha shared * beta
                + of_count
                    (SparseCounter.get_count (Group.counts group) v))%R.

(** A call that does not return. *)
Definition fails {A : Type} (r : result A) : Prop := ∃ e, r = Fail e.

(** The term of one (value, count) pair in [score_group], and the sum of
    the terms of a list of pairs. *)
Definition evidence_term `{Collaborators} (shared : Shared.t)
    (i : Value * count_t) : float :=
  let prior_i :=
    (default 0 (Shared.betas shared !! i.1) * Shared.alpha shared)%R in
  (fast_lgamma (prior_i + of_count i.2) - fast_lgamma prior_i)%R.

Definition evidence_sum `{Collaborators} (shared : Shared.t)
    (l : list (Value * count_t)) : float :=
  foldr (λ i acc, evidence_term shared i + acc)%R 0%R l.

(** The predictive probability whose logarithm [Scorer::eval] returns. *)
Definition predictive (shared : Shared.t) (group : Group.t) (beta : float)
    (value : Value) : float :=
  let total := of_count (SparseCounter.get_total (Group.counts group)) in
  (Shared.alpha shared / (Shared.alpha shared + total) * beta
   + 1 / (Shared.alpha shared + total)
     * of_count (SparseCounter.get_count (Group.counts group) value))%R.

(** Every value the group holds is below [betas.size()]. *)
Definition values_in_range (shared : Shared.t) (group : Group.t) : Prop :=
  ∀ key, is_Some (SparseCounter.count (Group.counts group) !! key) →
         key < length (Shared.betas shared).

(** The owner's operations on a Mixture, and a run of them in order. *)
Inductive mutation : Set :=
| Init
| AddGroup
| RemoveGroup (groupid : nat)
| AddValue (groupid : nat) (value : Value)
| RemoveValue (groupid : nat) (value : Value).

Definition mutate `{Collaborators} (shared : Shared.t) (op : mutation)
    (m : Mixture.t) (rng : rng_t) : result (Mixture.t * rng_t) :=
  match op with
  | Init => '(_, m', rng') ← Mixture.init shared m rng; Ok (m', rng')
  | AddGroup => '(_, m', rng') ← Mixture.add_group shared m rng; Ok (m', rng')
  | RemoveGroup groupid =>
      '(_, m') ← Mixture.remove_group shared groupid m; Ok (m', rng)
  | AddValue groupid value =>
      '(_, m', rng') ← Mixture.add_value shared groupid value m rng;
      Ok (m', rng')
  | RemoveValue groupid value =>
      '(_, m', rng') ← Mixture.remove_value shared groupid value m rng;
      Ok (m', rng')
  end.

Fixpoint mutate_all `{Collaborators} (shared : Shared.t)
    (ops : list mutation) (m : Mixture.t) (rng : rng_t)
    : result (Mixture.t * rng_t) :=
  match ops with
  | [] => Ok (m, rng)
  | op :: ops' =>
      '(m', rng') ← mutate shared op m rng; mutate_all shared ops' m' rng'
  end.

(** The sum of a dense buffer. *)
Definition Rsum (l : list float) : float := foldr Rplus 0%R l.

(** ** A concrete environment

    Exact arithmetic with the natural logarithm, every contract check
    compiled in, and a generator that is a draw counter.  The log-gamma and
    the two sampling primitives are stand-ins: the examples below never
    compare their values. *)
Definition exact_collaborators : Collaborators := {|
  rng_t := nat;
  DIST_DEBUG_LEVEL := 2;
  fast_log := ln;
  fast_lgamma := λ _, 0%R;
  sample_dirichlet := λ rng buf, (buf, S rng);
  sample_discrete := λ rng _, (0%nat, S rng);
|}.

(** a generator state of that environment *)
Definition rng0 : @rng_t exact_collaborators := 0%nat.

(** dim = 2, alpha = 4, betas = [1/2, 1/2], beta0 = 0 *)
Definition shared_ex : Shared.t :=
  Shared.mk (1 / 2) 4 0 [(1 / 2)%R; (1 / 2)%R].

Definition empty_group : Group.t := Group.mk SparseCounter.clear.

(** a group that has seen value 0 once *)
Definition group_ex : Group.t :=
  Group.mk (SparseCounter.mk {[ 0%nat := 1%N ]} 1).

(** a group whose count of value 0 is UINT32_MAX *)
Definition group_full : Group.t :=
  Group.mk (SparseCounter.mk {[ 0%nat := 4294967295%N ]} 4294967295).

(** a Mixture before [init]: no group, no cache *)
Definition mixture_fresh : Mixture.t := Mixture.mk [] [] [].

(** [mixture_fresh] after [init]: two rows, no column *)
Definition mixture_init : Mixture.t := Mixture.mk [] [[]; []] [].

(** [mixture_init] after [add_group] *)
Definition mixture_added : Mixture.t :=
  Mixture.mk [empty_group] [[0%R]; [0%R]] [0%R].

(** a Mixture whose only group received its value behind the cache's back:
    the cache still holds the closed forms of the empty group *)
Definition mixture_stale : Mixture.t :=
  Mixture.mk [group_ex]
    [[ln (4 * (1 / 2) + of_count 0)]; [ln (4 * (1 / 2) + of_count 0)]]%R
    [ln (4 + of_count 0)]%R.

(** the Mixture that [init] builds over the groups [group_ex; empty_group] *)
Definition mixture_ex : Mixture.t :=
  Mixture.mk [group_ex; empty_group]
    [[ln (4 * (1 / 2) + of_count 1); ln (4 * (1 / 2) + of_count 0)];
     [ln (4 * (1 / 2) + of_count 0); ln (4 * (1 / 2) + of_count 0)]]%R
    [ln (4 + of_count 1); ln (4 + of_count 0)]%R.

(** ** A performance build

    The environment of [exact_collaborators] with every debug-only check
    compiled out. *)
Definition release_collaborators : Collaborators := {|
  rng_t := nat;
  DIST_DEBUG_LEVEL := 0;
  fast_log := ln;
  fast_lgamma := λ _, 0%R;
  sample_dirichlet := λ rng buf, (buf, S rng);
  sample_discrete := λ rng _, (0%nat, S rng);
|}.

(** ** An environment with a log-gamma recurrence

    [lgamma_rec x] is the logarithm of [(x - 1) (x - 2) ... (x - n)], with
    as many factors as steps of 1 bring [x] into (0, 1]; on the positive
    reals it has the recurrence [lgamma (x + 1) = lgamma x + log x] of
    log-gamma. *)
Fixpoint log_falling (n : nat) (x : R) : R :=
  match n with
  | O => 0%R
  | S k => (ln (x - 1) + log_falling k (x - 1))%R
  end.

Definition lgamma_rec (x : R) : R := log_falling (Z.to_nat (up x) - 1) x.

Definition gamma_collaborators : Collaborators := {|
  rng_t := nat;
  DIST_DEBUG_LEVEL := 2;
  fast_log := ln;
  fast_lgamma := lgamma_rec;
  sample_dirichlet := λ rng buf, (buf, S rng);
  sample_discrete := λ rng _, (0%nat, S rng);
|}.

(** a group that holds a value outside [shared_ex]'s dictionary *)
Definition group_bad : Group.t :=
  Group.mk (SparseCounter.mk {[ 5%nat := 1%N ]} 1).

(** runs of operations on [mixture_ex] *)
Definition run_with_add_group : list mutation :=
  [AddGroup; AddValue 2 1; RemoveGroup 0; RemoveValue 0 1].

Definition run_without_add_group : list mutation :=
  [AddValue 1 1; RemoveGroup 0; RemoveValue 0 1; Init; AddValue 0 0].


(** ** A log-gamma with its pole

    The C library's lgamma on binary32 is +infinity at 0, where the real
    function has its pole, and at both infinities, and NaN at NaN;
    [lgamma32] has those values and is [lgamma_rec] elsewhere. *)
Definition lgamma32 (x : Ieee.binary32) : Ieee.binary32 :=
  match x with
  | Ieee.Finite r =>
      if Req_EM_T r 0 then Ieee.PlusInfinity else Ieee.Finite (lgamma_rec r)
  | Ieee.PlusInfinity | Ieee.MinusInfinity => Ieee.PlusInfinity
  | Ieee.NaN => Ieee.NaN
  end.

(** [shared_ex] on floats that need not be numbers *)
Definition shared32_ex : Ieee.Shared.t :=
  Ieee.Shared.mk (Ieee.Finite (1 / 2)) (Ieee.Finite 4) (Ieee.Finite 0)
    [Ieee.Finite (1 / 2); Ieee.Finite (1 / 2)].

(** dim = 2, alpha = 0, betas = [1/2, 1/2], beta0 = 0 *)
Definition shared32_pole : Ieee.Shared.t :=
  Ieee.Shared.mk (Ieee.Finite (1 / 2)) (Ieee.Finite 0) (Ieee.Finite 0)
    [Ieee.Finite (1 / 2); Ieee.Finite (1 / 2)].

(** * Properties *)

(** ** Arrays, assertions and loops *)

(** Reduce the binds of [result] whose first computation is a value. *)
Ltac bind_simpl :=
  cbv beta iota delta [mbind result_bind mret result_ret].

Section basics.
Context `{Collaborators}.

Lemma vec_get_Some {A} (v : list A) i x :
  v !! i = Some x → vec_get v i = Ok x.
Proof. unfold vec_get. by intros ->. Qed.

Lemma vec_set_Some {A} (v : list A) i x y :
  v !! i = Some y → vec_set v i x = Ok (<[i:=x]> v).
Proof. unfold vec_set. by intros ->. Qed.

Lemma vec_set_lt {A} (v : list A) i x :
  i < length v → vec_set v i x = Ok (<[i:=x]> v).
Proof.
  intros Hi. destruct (lookup_lt_is_Some_2 v i Hi) as [y Hy].
  by apply vec_set_Some with y.
Qed.

Lemma vec_back_Some {A} (v : list A) x :
  v !! (length v - 1) = Some x → vec_back v = Ok x.
Proof.
  unfold vec_back. rewrite last_lookup.
  replace (pred (length v)) with (length v - 1) by lia. by intros ->.
Qed.

Lemma DIST_ASSERT_true : DIST_ASSERT true = Ok ().
Proof. done. Qed.

Lemma DIST_ASSERT__true level : DIST_ASSERT_ level true = Ok ().
Proof. unfold DIST_ASSERT_. by destruct (_ <=? _)%nat. Qed.

Lemma DIST_ASSERT1_lt i n : i < n → DIST_ASSERT1 (i <? n)%nat = Ok ().
Proof.
  intros Hi. unfold DIST_ASSERT1.
  rewrite (proj2 (Nat.ltb_lt i n) Hi). apply DIST_ASSERT__true.
Qed.

Lemma DIST_ASSERT2_lt i n : i < n → DIST_ASSERT2 (i <? n)%nat = Ok ().
Proof.
  intros Hi. unfold DIST_ASSERT2.
  rewrite (proj2 (Nat.ltb_lt i n) Hi). apply DIST_ASSERT__true.
Qed.

Lemma to_Value_le n : to_Value n ≤ n.
Proof.
  unfold to_Value, wrap32.
  pose proof (N.Div0.mod_le (N.of_nat n) (2 ^ 32)). lia.
Qed.

Lemma wrap32_small n : (n < 2 ^ 32)%N → wrap32 n = n.
Proof. apply N.mod_small. Qed.

Lemma wrap32_succ_pred n :
  (n < 2 ^ 32)%N → wrap32 (wrap32 (n + 1) + (2 ^ 32 - 1)) = n.
Proof.
  intros Hn. unfold wrap32.
  destruct (decide (n + 1 = 2 ^ 32)%N) as [Heq|Hne].
  - rewrite Heq, N.Div0.mod_same. simpl (0 + _)%N.
    rewrite N.mod_small by lia. lia.
  - rewrite (N.mod_small (n + 1)) by lia.
    replace (n + 1 + (2 ^ 32 - 1))%N with (n + 1 * 2 ^ 32)%N by lia.
    rewrite N.Div0.mod_add. by apply N.mod_small.
Qed.
End basics.

Section loops.
Context {A : Type}.

(** A counted loop maintains any invariant its body maintains. *)
Lemma for_range_inv {St} (P : nat → St → Prop) body start count (s : St) :
  P start s →
  (∀ i s, start ≤ i < start + count → P i s →
          ∃ s', body i s = Ok s' ∧ P (S i) s') →
  ∃ s', for_range start count body s = Ok s' ∧ P (start + count) s'.
Proof.
  revert start s. induction count as [|k IH]; intros start s Hs Hbody.
  - exists s. by rewrite Nat.add_0_r.
  - destruct (Hbody start s) as (s1 & Hs1 & HP1); [lia|done|].
    destruct (IH (S start) s1 HP1) as (s2 & Hs2 & HP2).
    { intros i s' Hi. apply Hbody. lia. }
    exists s2. simpl. rewrite Hs1. simpl.
    split; [done|]. by replace (start + S k) with (S start + k) by lia.
Qed.


Lemma lookup_map_range (h : nat → A → A) start count (l : list A) i :
  map_range h start count l !! i =
    (λ x, if decide (start ≤ i < start + count) then h i x else x)
      <$> l !! i.
Proof. unfold map_range. by rewrite list_lookup_imap. Qed.

Lemma length_map_range (h : nat → A → A) start count (l : list A) :
  length (map_range h start count l) = length l.
Proof. unfold map_range. by rewrite length_imap. Qed.

Lemma for_range_pointwise (Q : A → Prop) (h : nat → A → A) body
    start count (s0 : list A) :
  (∀ i s x, start ≤ i < start + count → s !! i = Some x → Q x →
            body i s = Ok (<[i:=h i x]> s)) →
  (∀ i x, start ≤ i < start + count → s0 !! i = Some x → Q x) →
  start + count ≤ length s0 →
  for_range start count body s0 = Ok (map_range h start count s0).
Proof.
  revert start s0. induction count as [|k IH]; intros start s0 Hbody HQ Hlen.
  - simpl. f_equal. apply list_eq. intros i.
    rewrite lookup_map_range. destruct (s0 !! i); [simpl|done].
    case_decide; [lia|done].
  - destruct (lookup_lt_is_Some_2 s0 start) as [x Hx]; [lia|].
    simpl. rewrite (Hbody start s0 x) by (done || lia || eauto with lia).
    simpl. rewrite IH.
    + f_equal. apply list_eq. intros i. rewrite !lookup_map_range.
      destruct (decide (i = start)) as [->|Hne].
      * rewrite list_lookup_insert_eq by lia. rewrite Hx. simpl.
        repeat case_decide; (done || lia).
      * rewrite list_lookup_insert_ne by done.
        destruct (s0 !! i); [simpl|done].
        repeat case_decide; (done || lia).
    + intros i s x' Hi. apply Hbody. lia.
    + intros i x' Hi. rewrite list_lookup_insert_ne by lia.
      apply HQ. lia.
    + rewrite length_insert. lia.
Qed.

(** The array after a loop over the pairs of a histogram whose body
    rewrites the cell indexed by the key alone. *)
Lemma for_each_pointwise {C} (h : C → A → A) body (xs : list (nat * C))
    (s0 : list A) :
  NoDup xs.*1 →
  (∀ k c s x, (k, c) ∈ xs → s !! k = Some x →
              body (k, c) s = Ok (<[k:=h c x]> s)) →
  (∀ k c, (k, c) ∈ xs → k < length s0) →
  ∃ s', for_each xs body s0 = Ok s' ∧ length s' = length s0 ∧
        (∀ k c, (k, c) ∈ xs → s' !! k = h c <$> s0 !! k) ∧
        (∀ k, k ∉ xs.*1 → s' !! k = s0 !! k).
Proof.
  revert s0. induction xs as [|[k c] xs IH]; intros s0 Hnd Hbody Hlen.
  - exists s0. repeat split; try done. intros k c Hin. by apply elem_of_nil in Hin.
  - apply NoDup_cons in Hnd as [Hk Hnd].
    destruct (lookup_lt_is_Some_2 s0 k) as [x Hx].
    { apply (Hlen k c). left. }
    simpl. rewrite (Hbody k c s0 x) by (done || left). simpl.
    destruct (IH (<[k:=h c x]> s0) Hnd) as (s' & Hs' & Hl & Hin & Hout).
    { intros k' c' s x' Hin'. apply Hbody. by right. }
    { intros k' c' Hin'. rewrite length_insert. apply (Hlen k' c'). by right. }
    exists s'. split; [done|]. rewrite length_insert in Hl.
    split; [done|]. split.
    + intros k' c' Hin'. apply elem_of_cons in Hin' as [Heq|Hin'].
      * inversion Heq; subst k' c'. rewrite Hout by done.
        rewrite list_lookup_insert_eq by (by eapply lookup_lt_Some).
        by rewrite Hx.
      * rewrite (Hin k' c' Hin'). rewrite list_lookup_insert_ne; [done|].
        intros ->. apply Hk. apply list_elem_of_fmap. by exists (k', c').
    + intros k' Hk'. apply not_elem_of_cons in Hk' as [Hne Hk'].
      rewrite Hout by done. by rewrite list_lookup_insert_ne.
Qed.
End loops.

(** ** Group and the free scoring operations *)


Section group_and_scores.
Context `{Collaborators}.

Lemma get_count_add c key k :
  SparseCounter.get_count (SparseCounter.add c key).2 k =
    if decide (k = key)
    then wrap32 (SparseCounter.get_count c key + 1)
    else SparseCounter.get_count c k.
Proof.
  unfold SparseCounter.add, SparseCounter.get_count. simpl.
  case_decide as Hk.
  - subst k. by rewrite lookup_insert_eq.
  - by rewrite lookup_insert_ne.
Qed.

(** C7, amended.  [Group::add_value(v)] always succeeds, returns nothing
    ([void]), and leaves the group with the count of [v] and the total
    each incremented by one in [count_t], that is modulo 2^32: by exactly
    one whenever the old number is below UINT32_MAX.  The counts of the
    other values are unchanged, and so is the generator. *)
Theorem Group_add_value_increments (shared : Shared.t) (value : Value)
    (g : Group.t) (rng : rng_t) :
  ∃ g', Group.add_value shared value g rng = Ok ((), g', rng) ∧
    SparseCounter.get_count (Group.counts g') value =
      wrap32 (SparseCounter.get_count (Group.counts g) value + 1) ∧
    SparseCounter.get_total (Group.counts g') =
      wrap32 (SparseCounter.get_total (Group.counts g) + 1) ∧
    ((SparseCounter.get_count (Group.counts g) value < 2 ^ 32 - 1)%N →
     SparseCounter.get_count (Group.counts g') value =
       (SparseCounter.get_count (Group.counts g) value + 1)%N) ∧
    ((SparseCounter.get_total (Group.counts g) < 2 ^ 32 - 1)%N →
     SparseCounter.get_total (Group.counts g') =
       (SparseCounter.get_total (Group.counts g) + 1)%N) ∧
    (∀ k, k ≠ value →
       SparseCounter.get_count (Group.counts g') k =
         SparseCounter.get_count (Group.counts g) k).
Proof.
  exists (Group.mk (SparseCounter.add (Group.counts g) value).2).
  split; [done|]. simpl Group.counts.
  assert (Hc := get_count_add (Group.counts g) value).
  split; [|split; [|split; [|split]]].
  - rewrite Hc. by case_decide.
  - done.
  - intros Hlt. rewrite Hc. case_decide; [|done].
    apply wrap32_small. lia.
  - intros Hlt. unfold SparseCounter.get_total in *. simpl.
    apply wrap32_small. lia.
  - intros k Hk. rewrite Hc. by case_decide.
Qed.

Lemma Scorer_init_same_outcome shared group s rng1 rng2 :
  same_outcome rng1 rng2 (Scorer.init shared group s rng1)
                         (Scorer.init shared group s rng2).
Proof.
  unfold Scorer.init. destruct (for_range _ _ _ _) as [sc1|e]; [simpl|done].
  by destruct (for_each _ _ _).
Qed.

Lemma Scorer_eval_same_outcome shared value s rng1 rng2 :
  same_outcome rng1 rng2 (Scorer.eval shared value s rng1)
                         (Scorer.eval shared value s rng2).
Proof.
  unfold Scorer.eval. destruct (DIST_ASSERT _); [simpl|done].
  by destruct (vec_get _ _).
Qed.

(** C10.  None of the scoring operations draws from the generator: run
    from any two generator states, each of [Scorer::init], [Scorer::eval],
    [Mixture::score_value], the free [score_value] and [score_group] ends
    the same way both times, and on success hands the generator back as
    it received it. *)
Theorem scoring_consumes_no_randomness (shared : Shared.t)
    (group : Group.t) (m : Mixture.t) (value : Value)
    (accum : VectorFloat) (s : Scorer.t) (rng1 rng2 : rng_t) :
  same_outcome rng1 rng2 (Scorer.init shared group s rng1)
                         (Scorer.init shared group s rng2) ∧
  same_outcome rng1 rng2 (Scorer.eval shared value s rng1)
                         (Scorer.eval shared value s rng2) ∧
  same_outcome rng1 rng2 (Mixture.score_value shared value accum m rng1)
                         (Mixture.score_value shared value accum m rng2) ∧
  same_outcome rng1 rng2 (score_value shared group value rng1)
                         (score_value shared group value rng2) ∧
  same_outcome rng1 rng2 (score_group shared group rng1)
                         (score_group shared group rng2).
Proof.
  split; [apply Scorer_init_same_outcome|].
  split; [apply Scorer_eval_same_outcome|].
  split; [|split].
  - unfold Mixture.score_value.
    destruct (DIST_ASSERT1 _); [bind_simpl|done].
    destruct (2 <=? DIST_DEBUG_LEVEL)%nat;
      [destruct (DIST_ASSERT _); [bind_simpl|done]|bind_simpl].
    all: destruct (vec_get _ _); [bind_simpl|done].
    all: by destruct (vector_add_subtract _ _ _ _).
  - unfold score_value.
    pose proof (Scorer_init_same_outcome shared group (Scorer.mk []) rng1 rng2)
      as Hinit.
    destruct (Scorer.init shared group (Scorer.mk []) rng1)
      as [[[[] s1] r1]|e1],
      (Scorer.init shared group (Scorer.mk []) rng2)
      as [[[[] s2] r2]|e2]; simpl in *; try done.
    destruct Hinit as (Hs & -> & ->). injection Hs as ->.
    apply Scorer_eval_same_outcome.
  - unfold score_group. by destruct (for_each _ _ _).
Qed.
End group_and_scores.

(** ** The evidence of an empty group *)

Lemma Ieee_add_zero x : Ieee.add x (Ieee.of_count 0) = x.
Proof.
  destruct x; try done. unfold Ieee.of_count. simpl. f_equal. lra.
Qed.

Lemma Ieee_sub_diag x :
  Ieee.sub x x = if Ieee.is_finite x then Ieee.Finite 0 else Ieee.NaN.
Proof. destruct x; try done. unfold Ieee.sub. simpl. f_equal. lra. Qed.

(** C8.  [score_group] of a freshly initialised group, whatever the group
    held before [init] and whatever beta0 and the betas are, is exactly 0
    when [fast_lgamma (alpha)] is a finite number, and NaN when it is an
    infinity or NaN: the closing term then subtracts that value from
    itself. *)
Theorem score_group_empty_zero_or_nan {rng_t : Type}
    (fast_lgamma : Ieee.binary32 → Ieee.binary32) (shared : Ieee.Shared.t)
    (g : Group.t) (rng : rng_t) :
  ∃ g0, Ieee.Group_init shared g rng = Ok ((), g0, rng) ∧
        Ieee.score_group fast_lgamma shared g0 rng =
          Ok (if Ieee.is_finite (fast_lgamma (Ieee.Shared.alpha shared))
              then Ieee.Finite 0 else Ieee.NaN, rng).
Proof.
  exists (Group.mk SparseCounter.clear). split; [done|].
  unfold Ieee.score_group, SparseCounter.items. simpl Group.counts.
  unfold SparseCounter.clear at 1. simpl SparseCounter.count.
  rewrite map_to_list_empty. simpl for_each.
  cbv beta iota delta [mbind result_bind mret result_ret].
  change (SparseCounter.get_total SparseCounter.clear) with 0%N.
  rewrite Ieee_add_zero, Ieee_sub_diag.
  destruct (Ieee.is_finite _); simpl; [by rewrite Rplus_0_r|done].
Qed.

(** ** The cache of a Mixture *)


Section mixture_values.
Context `{Collaborators}.

Lemma add_value_ok shared groupid value m rng group beta row n c' :
  Mixture.groups m !! groupid = Some group →
  Shared.betas shared !! value = Some beta →
  Mixture.scores m !! value = Some row →
  groupid < length row →
  groupid < length (Mixture.scores_shift m) →
  SparseCounter.add (Group.counts group) value = (n, c') →
  Mixture.add_value shared groupid value m rng =
    Ok ((),
        Mixture.mk
          (<[groupid:=Group.mk c']> (Mixture.groups m))
          (<[value:=<[groupid:=fast_log (Shared.alpha shared * beta
                                         + of_count n)%R]> row]>
             (Mixture.scores m))
          (<[groupid:=fast_log (Shared.alpha shared
                                + of_count (SparseCounter.get_total c'))%R]>
             (Mixture.scores_shift m)),
        rng).
Proof.
  intros Hg Hb Hrow Hlen Hshift Hadd. unfold Mixture.add_value.
  rewrite DIST_ASSERT1_lt by (by eapply lookup_lt_Some). bind_simpl.
  rewrite DIST_ASSERT1_lt by (by eapply lookup_lt_Some). bind_simpl.
  rewrite (vec_get_Some _ _ _ Hg). bind_simpl. rewrite Hadd.
  rewrite (vec_set_Some _ _ _ _ Hg). bind_simpl.
  rewrite (vec_get_Some _ _ _ Hb). bind_simpl.
  rewrite (vec_get_Some _ _ _ Hrow). bind_simpl.
  rewrite vec_set_lt by done. bind_simpl.
  rewrite (vec_set_Some _ _ _ _ Hrow). bind_simpl.
  by rewrite vec_set_lt by done.
Qed.

Lemma remove_value_ok shared groupid value m rng group beta row n c' :
  Mixture.groups m !! groupid = Some group →
  Shared.betas shared !! value = Some beta →
  Mixture.scores m !! value = Some row →
  groupid < length row →
  groupid < length (Mixture.scores_shift m) →
  SparseCounter.remove (Group.counts group) value = Ok (n, c') →
  Mixture.remove_value shared groupid value m rng =
    Ok ((),
        Mixture.mk
          (<[groupid:=Group.mk c']> (Mixture.groups m))
          (<[value:=<[groupid:=fast_log (Shared.alpha shared * beta
                                         + of_count n)%R]> row]>
             (Mixture.scores m))
          (<[groupid:=fast_log (Shared.alpha shared
                                + of_count (SparseCounter.get_total c'))%R]>
             (Mixture.scores_shift m)),
        rng).
Proof.
  intros Hg Hb Hrow Hlen Hshift Hrem. unfold Mixture.remove_value.
  rewrite DIST_ASSERT2_lt by (by eapply lookup_lt_Some). bind_simpl.
  rewrite DIST_ASSERT1_lt by (by eapply lookup_lt_Some). bind_simpl.
  rewrite (vec_get_Some _ _ _ Hg). bind_simpl. rewrite Hrem. bind_simpl.
  rewrite (vec_set_Some _ _ _ _ Hg). bind_simpl.
  rewrite (vec_get_Some _ _ _ Hb). bind_simpl.
  rewrite (vec_get_Some _ _ _ Hrow). bind_simpl.
  rewrite vec_set_lt by done. bind_simpl.
  rewrite (vec_set_Some _ _ _ _ Hrow). bind_simpl.
  by rewrite vec_set_lt by done.
Qed.

(** What a call of add_value or remove_value needs of a well-shaped
    Mixture: the cells it reads and writes exist. *)
Lemma cache_shape_cells shared m groupid value :
  cache_shape shared m →
  groupid < length (Mixture.groups m) →
  value < to_Value (length (Shared.betas shared)) →
  ∃ group beta row,
    Mixture.groups m !! groupid = Some group ∧
    Shared.betas shared !! value = Some beta ∧
    Mixture.scores m !! value = Some row ∧
    groupid < length row ∧
    groupid < length (Mixture.scores_shift m).
Proof.
  intros (Hrows & Hcols & Hshift) Hg Hv.
  destruct (lookup_lt_is_Some_2 (Mixture.groups m) groupid Hg) as [group ?].
  destruct (lookup_lt_is_Some_2 (Shared.betas shared) value) as [beta ?].
  { pose proof (to_Value_le (length (Shared.betas shared))). lia. }
  destruct (lookup_lt_is_Some_2 (Mixture.scores m) value) as [row Hrow].
  { by rewrite Hrows. }
  exists group, beta, row. rewrite (Hcols _ _ Hrow), Hshift. done.
Qed.
End mixture_values.


Section frame.
Context `{Collaborators}.

Lemma score_cell_update m groups' shift' value groupid row x v' g' :
  Mixture.scores m !! value = Some row →
  score_cell
    (Mixture.mk groups' (<[value:=<[groupid:=x]> row]> (Mixture.scores m))
                shift') v' g' =
    if decide (v' = value ∧ g' = groupid ∧ groupid < length row)
    then Some x else score_cell m v' g'.
Proof.
  intros Hrow. unfold score_cell. simpl.
  destruct (decide (v' = value)) as [->|Hv].
  - rewrite list_lookup_insert_eq by (by eapply lookup_lt_Some).
    rewrite Hrow. simpl.
    destruct (decide (g' = groupid)) as [->|Hg].
    + destruct (decide (groupid < length row)).
      * rewrite list_lookup_insert_eq by done. by rewrite decide_True.
      * rewrite list_insert_ge by lia. rewrite decide_False by tauto. done.
    + rewrite list_lookup_insert_ne by done. rewrite decide_False by tauto.
      done.
  - rewrite list_lookup_insert_ne by done. rewrite decide_False by tauto.
    done.
Qed.

Lemma frame_of_update m grp' value groupid row x y :
  Mixture.scores m !! value = Some row →
  frame_of groupid value m
    (Mixture.mk (<[groupid:=grp']> (Mixture.groups m))
                (<[value:=<[groupid:=x]> row]> (Mixture.scores m))
                (<[groupid:=y]> (Mixture.scores_shift m))).
Proof.
  intros Hrow. split; [|split].
  - intros v' g' Hne. rewrite score_cell_update by done.
    rewrite decide_False; [done|]. intros (-> & -> & _). done.
  - intros g' Hne. simpl. by rewrite list_lookup_insert_ne.
  - intros g' Hne. simpl. by rewrite list_lookup_insert_ne.
Qed.

Lemma cache_shape_update shared m grp' value groupid row x y :
  cache_shape shared m →
  Mixture.scores m !! value = Some row →
  cache_shape shared
    (Mixture.mk (<[groupid:=grp']> (Mixture.groups m))
                (<[value:=<[groupid:=x]> row]> (Mixture.scores m))
                (<[groupid:=y]> (Mixture.scores_shift m))).
Proof.
  intros (Hrows & Hcols & Hshift) Hrow. unfold cache_shape. simpl.
  rewrite !length_insert. split; [done|]. split; [|done].
  intros v' row'. destruct (decide (v' = value)) as [->|Hne].
  - rewrite list_lookup_insert_eq by (by eapply lookup_lt_Some).
    intros [= <-]. rewrite length_insert. by eapply Hcols.
  - rewrite list_lookup_insert_ne by done. apply Hcols.
Qed.

(** C5.  On a well-shaped Mixture, for an active group and a value below
    [dim], [add_value] succeeds, and so does [remove_value] when the group
    holds the value; each leaves every cache cell other than
    [scores[value][groupid]], every shift entry other than
    [scores_shift[groupid]] and every group other than [groupid] as it
    was, keeps the shape of the cache, and does not touch the
    generator. *)
Theorem add_remove_value_frame (shared : Shared.t) (groupid : nat)
    (value : Value) (m : Mixture.t) (rng : rng_t) :
  cache_shape shared m →
  groupid < length (Mixture.groups m) →
  value < to_Value (length (Shared.betas shared)) →
  (∃ m', Mixture.add_value shared groupid value m rng = Ok ((), m', rng) ∧
         frame_of groupid value m m' ∧ cache_shape shared m') ∧
  (∀ group,
     Mixture.groups m !! groupid = Some group →
     is_Some (SparseCounter.count (Group.counts group) !! value) →
     ∃ m', Mixture.remove_value shared groupid value m rng
             = Ok ((), m', rng) ∧
           frame_of groupid value m m' ∧ cache_shape shared m').
Proof.
  intros Hshape Hg Hv.
  destruct (cache_shape_cells shared m groupid value Hshape Hg Hv)
    as (group & beta & row & Hgroup & Hbeta & Hrow & Hlen & Hshift).
  split.
  - destruct (SparseCounter.add (Group.counts group) value) as [n c'] eqn:Hadd.
    eexists. split; [by eapply add_value_ok|].
    split; [by apply frame_of_update|by apply cache_shape_update].
  - intros group' Hgroup' [old Hold].
    assert (group' = group) as -> by congruence.
    destruct (SparseCounter.remove (Group.counts group) value)
      as [[n c']|e] eqn:Hrem.
    + eexists. split; [by eapply remove_value_ok|].
      split; [by apply frame_of_update|by apply cache_shape_update].
    + unfold SparseCounter.remove in Hrem. by rewrite Hold in Hrem.
Qed.
End frame.

Section round_trip.
Context `{Collaborators}.

(** In the counter, [remove] undoes [add]. *)
Lemma counter_add_remove c key :
  counter_in_range c →
  ∃ c2, SparseCounter.remove (SparseCounter.add c key).2 key
          = Ok (SparseCounter.get_count c key, c2) ∧
        (∀ k, SparseCounter.get_count c2 k = SparseCounter.get_count c k) ∧
        SparseCounter.get_total c2 = SparseCounter.get_total c.
Proof.
  intros [Hcount Htotal].
  unfold SparseCounter.remove, SparseCounter.add. simpl.
  rewrite lookup_insert_eq.
  rewrite (wrap32_succ_pred (SparseCounter.get_count c key)) by apply Hcount.
  unfold SparseCounter.get_total in *.
  rewrite (wrap32_succ_pred (SparseCounter.total c)) by done.
  eexists. split; [done|]. split; [|done].
  intros k. unfold SparseCounter.get_count at 1. simpl.
  destruct (SparseCounter.get_count c key =? 0)%N eqn:Hz.
  - apply N.eqb_eq in Hz. destruct (decide (k = key)) as [->|Hne].
    + by rewrite lookup_delete_eq.
    + rewrite lookup_delete_ne, lookup_insert_ne by done. done.
  - destruct (decide (k = key)) as [->|Hne].
    + by rewrite lookup_insert_eq.
    + rewrite !lookup_insert_ne by done. done.
Qed.

(** C3, amended.  On a well-shaped Mixture whose cell
    [scores[value][groupid]] and entry [scores_shift[groupid]] hold their
    closed forms, [add_value(groupid, value)] followed by
    [remove_value(groupid, value)] succeeds and restores every count and
    the total of the group, every other group, and the whole cache. *)
Theorem add_remove_value_round_trip (shared : Shared.t) (groupid : nat)
    (value : Value) (m : Mixture.t) (group : Group.t) (rng : rng_t) :
  cache_shape shared m →
  Mixture.groups m !! groupid = Some group →
  value < to_Value (length (Shared.betas shared)) →
  counter_in_range (Group.counts group) →
  cell_consistent shared m groupid value →
  shift_consistent shared m groupid →
  ∃ m1 m2 group2,
    Mixture.add_value shared groupid value m rng = Ok ((), m1, rng) ∧
    Mixture.remove_value shared groupid value m1 rng = Ok ((), m2, rng) ∧
    Mixture.groups m2 !! groupid = Some group2 ∧
    (∀ k, SparseCounter.get_count (Group.counts group2) k =
          SparseCounter.get_count (Group.counts group) k) ∧
    SparseCounter.get_total (Group.counts group2) =
      SparseCounter.get_total (Group.counts group) ∧
    (∀ g', g' ≠ groupid →
           Mixture.groups m2 !! g' = Mixture.groups m !! g') ∧
    Mixture.scores m2 = Mixture.scores m ∧
    Mixture.scores_shift m2 = Mixture.scores_shift m.
Proof.
  intros Hshape Hgroup Hv Hrange Hcell Hshift.
  assert (groupid < length (Mixture.groups m)) as Hg
    by (by eapply lookup_lt_Some).
  destruct (cache_shape_cells shared m groupid value Hshape Hg Hv)
    as (group' & beta & row & Hgroup' & Hbeta & Hrow & Hlen & Hslen).
  assert (group' = group) as -> by congruence.
  destruct (counter_add_remove (Group.counts group) value Hrange)
    as (c2 & Hrem & Hcounts & Htotal).
  destruct (SparseCounter.add (Group.counts group) value) as [n c1] eqn:Hadd.
  simpl in Hrem.
  eexists _, _, (Group.mk c2).
  split; [by eapply add_value_ok|].
  split.
  { eapply (remove_value_ok _ _ _ _ _ (Group.mk c1) beta); simpl.
    - by apply list_lookup_insert_eq.
    - done.
    - by apply list_lookup_insert_eq, lookup_lt_Some with row.
    - by rewrite length_insert.
    - by rewrite length_insert.
    - done. }
  simpl. rewrite !list_insert_insert_eq.
  split; [by apply list_lookup_insert_eq|].
  split; [done|]. split; [done|].
  split; [intros g' Hne; by rewrite list_lookup_insert_ne|].
  split.
  - specialize (Hcell group beta Hgroup Hbeta).
    unfold score_cell in Hcell. rewrite Hrow in Hcell. simpl in Hcell.
    unfold score_of in Hcell.
    rewrite (list_insert_id row) by done. by apply list_insert_id.
  - specialize (Hshift group Hgroup). unfold shift_of in Hshift.
    rewrite Htotal. by apply list_insert_id.
Qed.
End round_trip.

Section batched_scoring.
Context `{Collaborators}.

Lemma vector_add_subtract_ok size (accum a b : VectorFloat) :
  size ≤ length accum → size ≤ length a → size ≤ length b →
  vector_add_subtract size accum a b =
    Ok (map_range
          (λ i x, x + (default 0 (a !! i) - default 0 (b !! i)))%R
          0 size accum).
Proof.
  intros Hacc Ha Hb. unfold vector_add_subtract.
  apply for_range_pointwise with (Q := λ _, True); [|done|lia].
  intros i s x Hi Hx _.
  destruct (lookup_lt_is_Some_2 a i) as [ai Hai]; [lia|].
  destruct (lookup_lt_is_Some_2 b i) as [bi Hbi]; [lia|].
  rewrite (vec_get_Some _ _ _ Hx). bind_simpl.
  rewrite (vec_get_Some _ _ _ Hai). bind_simpl.
  rewrite (vec_get_Some _ _ _ Hbi). bind_simpl.
  rewrite (vec_set_Some _ _ _ _ Hx). by rewrite Hai, Hbi.
Qed.

Lemma score_value_ok shared value accum m rng row :
  value < length (Shared.betas shared) →
  Mixture.scores m !! value = Some row →
  length accum = length (Mixture.groups m) →
  length row = length (Mixture.groups m) →
  length (Mixture.scores_shift m) = length (Mixture.groups m) →
  Mixture.score_value shared value accum m rng =
    Ok ((),
        map_range
          (λ i x, x + (default 0 (row !! i)
                       - default 0 (Mixture.scores_shift m !! i)))%R
          0 (length (Mixture.groups m)) accum,
        rng).
Proof.
  intros Hv Hrow Hacc Hlen Hshift. unfold Mixture.score_value.
  rewrite DIST_ASSERT1_lt by done. bind_simpl.
  rewrite Hacc, Nat.eqb_refl, DIST_ASSERT_true.
  replace (if (2 <=? DIST_DEBUG_LEVEL)%nat then Ok () else Ok ())
    with (Ok ()) by (by destruct (_ <=? _)%nat).
  bind_simpl. rewrite (vec_get_Some _ _ _ Hrow). bind_simpl.
  rewrite vector_add_subtract_ok by lia. done.
Qed.

(** C6.  On a well-shaped Mixture, for a value below [dim] and a buffer
    with one entry per group, [Mixture::score_value] succeeds and returns
    the buffer with [scores[value][g] - scores_shift[g]] added to the
    former content of entry [g], for every group [g]; the length of the
    buffer is kept, and the call, a [const] method, returns no new
    Mixture and hands the generator back untouched. *)
Theorem score_value_accumulates (shared : Shared.t) (value : Value)
    (accum : VectorFloat) (m : Mixture.t) (rng : rng_t) :
  cache_shape shared m →
  value < to_Value (length (Shared.betas shared)) →
  length accum = length (Mixture.groups m) →
  ∃ accum',
    Mixture.score_value shared value accum m rng = Ok ((), accum', rng) ∧
    length accum' = length accum ∧
    ∀ g, g < length (Mixture.groups m) →
      ∃ old score shift,
        accum !! g = Some old ∧
        score_cell m value g = Some score ∧
        Mixture.scores_shift m !! g = Some shift ∧
        accum' !! g = Some (old + (score - shift))%R.
Proof.
  intros Hshape Hv Hacc.
  pose proof Hshape as (Hrows & Hcols & Hshift).
  destruct (lookup_lt_is_Some_2 (Mixture.scores m) value) as [row Hrow].
  { by rewrite Hrows. }
  pose proof (to_Value_le (length (Shared.betas shared))).
  eexists. split.
  { apply score_value_ok with (row := row); eauto with lia. }
  split; [apply length_map_range|].
  intros g Hg.
  destruct (lookup_lt_is_Some_2 accum g) as [old Hold]; [lia|].
  destruct (lookup_lt_is_Some_2 row g) as [score Hscore].
  { by rewrite (Hcols _ _ Hrow). }
  destruct (lookup_lt_is_Some_2 (Mixture.scores_shift m) g)
    as [shift Hsh]; [lia|].
  exists old, score, shift. split; [done|].
  split; [unfold score_cell; by rewrite Hrow|]. split; [done|].
  rewrite lookup_map_range, Hold, Hscore, Hsh. simpl.
  rewrite decide_True by lia. done.
Qed.
End batched_scoring.

Section groups.
Context `{Collaborators}.

Lemma resize_rows_ok dim group_count (sc : list (list float)) :
  dim ≤ length sc →
  Mixture.resize_rows dim group_count sc =
    Ok (map_range (λ _ row, resize group_count 0%R row) 0 dim sc).
Proof.
  intros Hdim. unfold Mixture.resize_rows.
  apply for_range_pointwise with (Q := λ _, True); [|done|lia].
  intros i s x Hi Hx _.
  rewrite (vec_get_Some _ _ _ Hx). bind_simpl.
  by rewrite (vec_set_Some _ _ _ _ Hx).
Qed.


Lemma remove_group_ok shared groupid m a b :
  cache_shape shared m →
  groupid < length (Mixture.groups m) - 1 →
  Mixture.groups m !! groupid = Some a →
  Mixture.groups m !! (length (Mixture.groups m) - 1) = Some b →
  Mixture.remove_group shared groupid m =
    Ok ((), swap_removed shared groupid m a b).
Proof.
  intros (Hrows & Hcols & Hshift) Hg Ha Hb.
  unfold Mixture.remove_group, swap_removed.
  rewrite DIST_ASSERT1_lt by lia. bind_simpl.
  destruct (length (Mixture.groups m)) as [|k] eqn:Hn; [lia|].
  replace (S k - 1) with k in * by lia.
  simpl size_minus_one. bind_simpl.
  rewrite decide_True by lia.
  rewrite (vec_get_Some _ _ _ Ha). bind_simpl.
  rewrite (vec_back_Some _ b) by (rewrite Hn; by replace (S k - 1) with k by lia).
  bind_simpl.
  rewrite (vec_set_Some _ _ _ _ Ha). bind_simpl.
  rewrite length_insert, Hn. replace (S k - 1) with k by lia.
  rewrite vec_set_lt by (rewrite length_insert; lia). bind_simpl.
  destruct (lookup_lt_is_Some_2 (Mixture.scores_shift m) k) as [t Ht]; [lia|].
  rewrite (vec_back_Some _ t)
    by (rewrite Hshift; by replace (S k - 1) with k by lia).
  bind_simpl. rewrite vec_set_lt by lia. bind_simpl.
  rewrite (for_range_pointwise (λ row, length row = S k)
             (λ _ row, <[groupid:=default 0%R (row !! k)]> row)).
  - bind_simpl. rewrite resize_rows_ok
      by (rewrite length_map_range; lia).
    bind_simpl. by rewrite Ht.
  - intros i s row _ Hrow Hlen.
    rewrite (vec_get_Some _ _ _ Hrow). bind_simpl.
    destruct (lookup_lt_is_Some_2 row k) as [x Hx]; [lia|].
    rewrite (vec_back_Some _ x)
      by (rewrite Hlen; by replace (S k - 1) with k by lia).
    bind_simpl. rewrite vec_set_lt by lia. bind_simpl.
    rewrite (vec_set_Some _ _ _ _ Hrow). by rewrite Hx.
  - intros i row _ Hrow. by apply Hcols in Hrow.
  - lia.
Qed.
End groups.

Section swap_removal.
Context `{Collaborators}.

Lemma score_cell_swap_removed shared groupid m a b value g :
  cache_shape shared m →
  groupid < length (Mixture.groups m) - 1 →
  value < to_Value (length (Shared.betas shared)) →
  g < length (Mixture.groups m) - 1 →
  score_cell (swap_removed shared groupid m a b) value g =
    score_cell m value
      (if decide (g = groupid) then length (Mixture.groups m) - 1 else g).
Proof.
  intros (Hrows & Hcols & Hshift) Hgid Hv Hg.
  unfold score_cell, swap_removed. simpl.
  rewrite !lookup_map_range.
  destruct (lookup_lt_is_Some_2 (Mixture.scores m) value) as [row Hrow];
    [lia|].
  rewrite Hrow. simpl. rewrite !decide_True by lia.
  pose proof (Hcols _ _ Hrow) as Hlen.
  rewrite lookup_resize by (rewrite ?length_insert; lia).
  case_decide as Heq.
  - subst g. rewrite list_lookup_insert_eq by lia.
    destruct (lookup_lt_is_Some_2 row (length (Mixture.groups m) - 1))
      as [x Hx]; [lia|].
    by rewrite Hx.
  - by rewrite list_lookup_insert_ne.
Qed.

Lemma groups_swap_removed shared groupid m a b g :
  groupid < length (Mixture.groups m) - 1 →
  Mixture.groups m !! groupid = Some a →
  Mixture.groups m !! (length (Mixture.groups m) - 1) = Some b →
  g < length (Mixture.groups m) - 1 →
  Mixture.groups (swap_removed shared groupid m a b) !! g =
    Mixture.groups m !!
      (if decide (g = groupid) then length (Mixture.groups m) - 1 else g).
Proof.
  intros Hgid Ha Hb Hg. unfold swap_removed. simpl.
  rewrite lookup_resize by (rewrite ?length_insert; lia).
  rewrite list_lookup_insert_ne by lia. case_decide as Heq.
  - subst g. rewrite list_lookup_insert_eq by lia. done.
  - by rewrite list_lookup_insert_ne.
Qed.

Lemma shift_swap_removed shared groupid m a b g :
  cache_shape shared m →
  groupid < length (Mixture.groups m) - 1 →
  g < length (Mixture.groups m) - 1 →
  Mixture.scores_shift (swap_removed shared groupid m a b) !! g =
    Mixture.scores_shift m !!
      (if decide (g = groupid) then length (Mixture.groups m) - 1 else g).
Proof.
  intros (_ & _ & Hshift) Hgid Hg. unfold swap_removed. simpl.
  rewrite lookup_resize by (rewrite ?length_insert; lia).
  destruct (lookup_lt_is_Some_2 (Mixture.scores_shift m)
              (length (Mixture.groups m) - 1)) as [t Ht]; [lia|].
  case_decide as Heq.
  - subst g. rewrite list_lookup_insert_eq by lia. by rewrite Ht.
  - by rewrite list_lookup_insert_ne.
Qed.

Lemma cache_shape_swap_removed shared groupid m a b :
  cache_shape shared m →
  groupid < length (Mixture.groups m) - 1 →
  cache_shape shared (swap_removed shared groupid m a b).
Proof.
  intros (Hrows & Hcols & Hshift) Hgid.
  unfold cache_shape, swap_removed. simpl.
  rewrite !length_map_range, !length_resize. split; [done|]. split; [|done].
  intros value row. rewrite !lookup_map_range.
  destruct (Mixture.scores m !! value) as [row0|] eqn:Hrow0; [simpl|done].
  assert (value < length (Mixture.scores m)) by (by eapply lookup_lt_Some).
  rewrite !decide_True by lia. intros [= <-]. apply length_resize.
Qed.

(** C4.  On a well-shaped Mixture, [remove_group(groupid)] for a
    [groupid] that is not the last index succeeds; afterwards slot
    [groupid] holds the former last group, its [scores_shift] entry and,
    for every value below [dim], its [scores] entry; the group array, the
    shift array and every cache row are one shorter; the other remaining
    slots are as before.  The former last group has changed index, so
    indices do not identify groups across a removal. *)
Theorem remove_group_swaps_last (shared : Shared.t) (groupid : nat)
    (m : Mixture.t) :
  cache_shape shared m →
  groupid < length (Mixture.groups m) - 1 →
  let last := length (Mixture.groups m) - 1 in
  ∃ m',
    Mixture.remove_group shared groupid m = Ok ((), m') ∧
    length (Mixture.groups m') = last ∧
    cache_shape shared m' ∧
    Mixture.groups m' !! groupid = Mixture.groups m !! last ∧
    Mixture.scores_shift m' !! groupid = Mixture.scores_shift m !! last ∧
    (∀ value, value < to_Value (length (Shared.betas shared)) →
       score_cell m' value groupid = score_cell m value last) ∧
    (∀ g, g < last → g ≠ groupid →
       Mixture.groups m' !! g = Mixture.groups m !! g ∧
       Mixture.scores_shift m' !! g = Mixture.scores_shift m !! g ∧
       ∀ value, value < to_Value (length (Shared.betas shared)) →
         score_cell m' value g = score_cell m value g).
Proof.
  intros Hshape Hgid last.
  pose proof Hshape as (Hrows & Hcols & Hshift).
  destruct (lookup_lt_is_Some_2 (Mixture.groups m) groupid) as [a Ha];
    [lia|].
  destruct (lookup_lt_is_Some_2 (Mixture.groups m) last) as [b Hb];
    [unfold last; lia|].
  exists (swap_removed shared groupid m a b).
  split; [by apply remove_group_ok|].
  split; [simpl; apply length_resize|].
  split; [by apply cache_shape_swap_removed|].
  split; [|split; [|split]].
  - rewrite groups_swap_removed by done. by rewrite decide_True.
  - rewrite shift_swap_removed by done. by rewrite decide_True.
  - intros value Hv. rewrite score_cell_swap_removed by done.
    by rewrite decide_True.
  - intros g Hg Hne. split; [|split].
    + rewrite groups_swap_removed by done. by rewrite decide_False.
    + rewrite shift_swap_removed by done. by rewrite decide_False.
    + intros value Hv. rewrite score_cell_swap_removed by done.
      by rewrite decide_False.
Qed.
End swap_removal.

Section sampler.
Context `{Collaborators}.
Local Open Scope R_scope.

Lemma of_count_0 : of_count 0 = 0.
Proof. done. Qed.

(** C9.  For a group whose present values are all below
    [betas.size()], [Sampler::init] builds a buffer of [dim + 1] entries,
    entry [v] being [alpha * betas[v]] plus the group's count of [v] for
    every [v] below [dim] and the last being [alpha * beta0], and then
    keeps what [sample_dirichlet] makes of exactly that buffer, together
    with the generator state the primitive returns. *)
Theorem Sampler_init_concentrations (shared : Shared.t) (group : Group.t)
    (s : Sampler.t) (rng : rng_t) :
  (∀ key, is_Some (SparseCounter.count (Group.counts group) !! key) →
          (key < length (Shared.betas shared))%nat) →
  ∃ buf : VectorFloat,
    length buf = (length (Shared.betas shared) + 1)%nat ∧
    (∀ v beta, Shared.betas shared !! v = Some beta →
       buf !! v =
         Some (Shared.alpha shared * beta
               + of_count
                   (SparseCounter.get_count (Group.counts group) v))) ∧
    buf !! length (Shared.betas shared) =
      Some (Shared.alpha shared * Shared.beta0 shared) ∧
    Sampler.init shared group s rng =
      Ok ((), Sampler.mk (sample_dirichlet rng buf).1,
          (sample_dirichlet rng buf).2).
Proof.
  intros Hkeys.
  set (probs0 := (λ beta, beta * Shared.alpha shared)
                   <$> Shared.betas shared).
  destruct (for_each_pointwise (λ (c : N) x, x + of_count c)
              (λ (i : nat * N) probs,
                 x ← vec_get probs i.1;
                 vec_set probs i.1 (x + of_count i.2))
              (SparseCounter.items (Group.counts group)) probs0)
    as (probs1 & Hloop & Hlen & Hin & Hout).
  { apply NoDup_fst_map_to_list. }
  { intros k c sc x _ Hx. simpl.
    rewrite (vec_get_Some _ _ _ Hx). bind_simpl.
    by rewrite (vec_set_Some _ _ _ _ Hx). }
  { intros k c Hin. apply elem_of_map_to_list in Hin.
    unfold probs0. rewrite length_fmap. apply Hkeys. by exists c. }
  unfold probs0 in Hlen. rewrite length_fmap in Hlen.
  exists (probs1 ++ [Shared.beta0 shared * Shared.alpha shared]).
  split; [rewrite length_app, Hlen; done|].
  split; [|split].
  - intros v beta Hbeta.
    rewrite lookup_app_l by (rewrite Hlen; by eapply lookup_lt_Some).
    unfold SparseCounter.get_count.
    destruct (SparseCounter.count (Group.counts group) !! v) as [c|] eqn:Hc.
    + rewrite (Hin v c) by (by apply elem_of_map_to_list).
      unfold probs0. rewrite list_lookup_fmap, Hbeta. simpl.
      f_equal. lra.
    + rewrite Hout.
      * unfold probs0. rewrite list_lookup_fmap, Hbeta. simpl.
        rewrite of_count_0. f_equal. lra.
      * intros Hv. apply list_elem_of_fmap in Hv as ([k c] & -> & Hv).
        apply elem_of_map_to_list in Hv. simpl in Hc. congruence.
  - rewrite lookup_app_r by lia. rewrite Hlen, Nat.sub_diag. simpl.
    f_equal. lra.
  - unfold Sampler.init, Sampler.concentrations. fold probs0.
    rewrite Hloop. bind_simpl. by destruct (sample_dirichlet _ _).
Qed.
End sampler.

Section scorer.
Context `{Collaborators}.
Local Open Scope R_scope.

Lemma of_count_nonneg c : 0 <= of_count c.
Proof. unfold of_count. apply (IZR_le 0). lia. Qed.

(** What [Scorer::init] leaves in [scores]. *)
Lemma Scorer_init_ok shared group s rng :
  (∀ key, is_Some (SparseCounter.count (Group.counts group) !! key) →
          (key < length (Shared.betas shared))%nat) →
  let total := of_count (SparseCounter.get_total (Group.counts group)) in
  let betas_scale := Shared.alpha shared / (Shared.alpha shared + total) in
  let counts_scale := 1 / (Shared.alpha shared + total) in
  ∃ sc,
    Scorer.init shared group s rng = Ok ((), Scorer.mk sc, rng) ∧
    length sc = length (Shared.betas shared) ∧
    ∀ v beta, Shared.betas shared !! v = Some beta →
      sc !! v =
        Some (match SparseCounter.count (Group.counts group) !! v with
              | Some c => betas_scale * beta + counts_scale * of_count c
              | None => betas_scale * beta
              end).
Proof.
  intros Hkeys total betas_scale counts_scale.
  set (size := length (Shared.betas shared)).
  set (scores0 := resize size 0 (Scorer.scores s)).
  set (scores1 :=
         map_range
           (λ i _, betas_scale * default 0 (Shared.betas shared !! i))
           0 size scores0).
  assert (length scores1 = size) as Hlen1.
  { unfold scores1, scores0. by rewrite length_map_range, length_resize. }
  destruct (for_each_pointwise (λ (c : N) x, x + counts_scale * of_count c)
              (λ (i : nat * N) sc,
                 let value := i.1 in
                 DIST_ASSERT (value <? size)%nat;;
                 x ← vec_get sc value;
                 vec_set sc value (x + counts_scale * of_count i.2))
              (SparseCounter.items (Group.counts group)) scores1)
    as (scores2 & Hloop & Hlen & Hin & Hout).
  { apply NoDup_fst_map_to_list. }
  { intros k c sc x Hk Hx. simpl.
    apply elem_of_map_to_list in Hk.
    rewrite (proj2 (Nat.ltb_lt k size)) by (apply Hkeys; by exists c).
    rewrite DIST_ASSERT_true. bind_simpl.
    rewrite (vec_get_Some _ _ _ Hx). bind_simpl.
    by rewrite (vec_set_Some _ _ _ _ Hx). }
  { intros k c Hk. apply elem_of_map_to_list in Hk.
    rewrite Hlen1. apply Hkeys. by exists c. }
  exists scores2. split; [|split].
  - unfold Scorer.init. fold size total betas_scale scores0.
    rewrite (for_range_pointwise (λ _, True)
               (λ i _, betas_scale * default 0 (Shared.betas shared !! i))).
    + bind_simpl. fold counts_scale scores1.
      cbv beta iota zeta delta [mbind result_bind] in Hloop.
      by rewrite Hloop.
    + intros i sc x Hi Hx _.
      destruct (lookup_lt_is_Some_2 (Shared.betas shared) i) as [b Hb];
        [unfold size in Hi; lia|].
      rewrite (vec_get_Some _ _ _ Hb). bind_simpl.
      rewrite (vec_set_Some _ _ _ _ Hx). by rewrite Hb.
    + done.
    + unfold scores0. rewrite length_resize. lia.
  - by rewrite Hlen, Hlen1.
  - intros v beta Hbeta.
    assert (scores1 !! v = Some (betas_scale * beta)) as Hv1.
    { unfold scores1. rewrite lookup_map_range.
      destruct (lookup_lt_is_Some_2 scores0 v) as [x Hx].
      { unfold scores0. rewrite length_resize. by eapply lookup_lt_Some. }
      rewrite Hx. simpl. rewrite decide_True.
      - by rewrite Hbeta.
      - apply lookup_lt_Some in Hbeta. unfold size. lia. }
    destruct (SparseCounter.count (Group.counts group) !! v) as [c|] eqn:Hc.
    + rewrite (Hin v c) by (by apply elem_of_map_to_list).
      by rewrite Hv1.
    + rewrite Hout; [done|].
      intros Hv. apply list_elem_of_fmap in Hv as ([k c] & -> & Hv).
      apply elem_of_map_to_list in Hv. simpl in Hc. congruence.
Qed.

Lemma Scorer_eval_ok shared value sc rng x :
  sc !! value = Some x →
  Scorer.eval shared value (Scorer.mk sc) rng = Ok (fast_log x, rng).
Proof.
  intros Hx. unfold Scorer.eval. simpl.
  rewrite (proj2 (Nat.ltb_lt value (length sc)))
    by (by eapply lookup_lt_Some).
  rewrite DIST_ASSERT_true. bind_simpl.
  by rewrite (vec_get_Some _ _ _ Hx).
Qed.
End scorer.

Section batched_vs_scorer.
Context `{Collaborators}.
Local Open Scope R_scope.

(** C2.  In exact arithmetic, with a logarithm that turns a quotient of
    positive numbers into a difference, and where the two cached
    logarithms are taken of positive numbers: on a Mixture whose cache is
    consistent with its groups, entry [groupid] of the buffer that
    [Mixture::score_value] returns for a zero-initialised buffer equals
    what [Scorer::eval] returns after [Scorer::init] on group [groupid]
    (whose values are all below [dim], as the Scorer asserts), whatever the
    Scorer held before. *)
Theorem batched_equals_per_group (shared : Shared.t) (m : Mixture.t)
    (value : Value) (groupid : nat) (group : Group.t) (beta : float)
    (s : Scorer.t) (rng : rng_t) :
  (∀ x y, 0 < x → 0 < y → fast_log (x / y) = fast_log x - fast_log y) →
  cache_consistent shared m →
  (value < to_Value (length (Shared.betas shared)))%nat →
  Mixture.groups m !! groupid = Some group →
  Shared.betas shared !! value = Some beta →
  (∀ key, is_Some (SparseCounter.count (Group.counts group) !! key) →
          (key < length (Shared.betas shared))%nat) →
  0 < Shared.alpha shared
      + of_count (SparseCounter.get_total (Group.counts group)) →
  0 < Shared.alpha shared * beta
      + of_count (SparseCounter.get_count (Group.counts group) value) →
  ∃ accum' s' x,
    Mixture.score_value shared value
      (replicate (length (Mixture.groups m)) 0) m rng
      = Ok ((), accum', rng) ∧
    Scorer.init shared group s rng = Ok ((), s', rng) ∧
    Scorer.eval shared value s' rng = Ok (x, rng) ∧
    accum' !! groupid = Some x.
Proof.
  intros Hlog [Hshape Hcache] Hv Hgroup Hb Hkeys Hpos_shift Hpos_cell.
  assert (groupid < length (Mixture.groups m))%nat as Hg
    by (by eapply lookup_lt_Some).
  destruct (Hcache groupid Hg) as [Hshift Hcells].
  specialize (Hshift group Hgroup).
  specialize (Hcells value Hv group beta Hgroup Hb).
  pose proof Hshape as (Hrows & Hcols & Hslen).
  unfold score_cell in Hcells.
  destruct (Mixture.scores m !! value) as [row|] eqn:Hrow; [|done].
  simpl in Hcells.
  pose proof (to_Value_le (length (Shared.betas shared))) as Hdim.
  pose proof (score_value_ok shared value
                (replicate (length (Mixture.groups m)) 0) m rng row)
    as Hscore.
  rewrite length_replicate in Hscore.
  specialize (Hscore ltac:(lia) Hrow eq_refl (Hcols _ _ Hrow) Hslen).
  match type of Hscore with
  | _ = Ok (_, ?buf, _) => set (accum' := buf) in *
  end.
  assert (accum' !! groupid =
            Some (0 + (score_of shared beta group value
                       - shift_of shared group))) as Hres.
  { unfold accum'. rewrite lookup_map_range.
    rewrite lookup_replicate_2 by done. simpl.
    rewrite decide_True by lia. by rewrite Hcells, Hshift. }
  destruct (Scorer_init_ok shared group s rng Hkeys)
    as (sc & Hinit & _ & Hsc).
  specialize (Hsc value beta Hb).
  eexists accum', (Scorer.mk sc), _.
  split; [done|]. split; [done|].
  split; [by apply Scorer_eval_ok|].
  rewrite Hres. f_equal. unfold score_of, shift_of.
  unfold SparseCounter.get_count in *.
  set (total := of_count (SparseCounter.get_total (Group.counts group))) in *.
  rewrite Rplus_0_l.
  destruct (SparseCounter.count (Group.counts group) !! value) as [c|];
    simpl in *.
  - rewrite <- Hlog by lra. f_equal. field. lra.
  - rewrite of_count_0, Rplus_0_r in *.
    rewrite <- Hlog by lra. f_equal. field. lra.
Qed.
End batched_vs_scorer.

Section init.
Context `{Collaborators}.
Local Open Scope R_scope.

Lemma vector_log_ok size (data : VectorFloat) :
  (size ≤ length data)%nat →
  vector_log size data = Ok (map_range (λ _ x, fast_log x) 0 size data).
Proof.
  intros Hsize. unfold vector_log.
  apply for_range_pointwise with (Q := λ _, True); [|done|lia].
  intros i s x Hi Hx _.
  rewrite (vec_get_Some _ _ _ Hx). bind_simpl.
  by rewrite (vec_set_Some _ _ _ _ Hx).
Qed.


Lemma fill_group_ok shared groups groupid group sc shift :
  let dim := to_Value (length (Shared.betas shared)) in
  filled shared groups groupid (sc, shift) →
  groups !! groupid = Some group →
  ∃ sc' shift',
    (sc'' ← for_range 0 dim
       (λ value sc,
          beta ← vec_get (Shared.betas shared) value;
          row ← vec_get sc value;
          row' ← vec_set row groupid
            (Shared.alpha shared * beta
             + of_count
                 (SparseCounter.get_count (Group.counts group) value));
          vec_set sc value row') sc;
     shift'' ← vec_set shift groupid
       (Shared.alpha shared
        + of_count (SparseCounter.get_total (Group.counts group)));
     Ok (sc'', shift'')) = Ok (sc', shift') ∧
    filled shared groups (S groupid) (sc', shift').
Proof.
  intros dim (Hrows & Hcols & Hshift & Hdone) Hgroup. simpl in *.
  assert (groupid < length groups)%nat as Hg by (by eapply lookup_lt_Some).
  pose proof (to_Value_le (length (Shared.betas shared))) as Hdim.
  set (h := λ (v : nat) (row : list float),
         <[groupid:=Shared.alpha shared
                    * default 0 (Shared.betas shared !! v)
                    + of_count
                        (SparseCounter.get_count (Group.counts group) v)]>
           row).
  eexists (map_range h 0 dim sc), _. split.
  - rewrite (for_range_pointwise (λ row, length row = length groups) h).
    + bind_simpl. rewrite vec_set_lt by lia. done.
    + intros v s row Hv Hrow Hlen.
      destruct (lookup_lt_is_Some_2 (Shared.betas shared) v) as [b Hb];
        [fold dim in Hv; lia|].
      rewrite (vec_get_Some _ _ _ Hb). bind_simpl.
      rewrite (vec_get_Some _ _ _ Hrow). bind_simpl.
      rewrite vec_set_lt by lia. bind_simpl.
      rewrite (vec_set_Some _ _ _ _ Hrow). unfold h. by rewrite Hb.
    + intros v row _ Hrow. by eapply Hcols.
    + fold dim in Hrows. lia.
  - unfold filled. simpl. fold dim.
    rewrite length_map_range, length_insert.
    split; [done|]. split; [|split; [done|]].
    + intros v row. rewrite lookup_map_range.
      destruct (sc !! v) as [row0|] eqn:Hrow0; [simpl|done].
      intros [= <-]. case_decide; [unfold h; rewrite length_insert|];
        by eapply Hcols.
    + intros g group' Hlt Hgroup'.
      destruct (decide (g = groupid)) as [->|Hne].
      * assert (group' = group) as -> by congruence.
        split; [by apply list_lookup_insert_eq; lia|].
        intros v beta Hv Hbeta.
        destruct (lookup_lt_is_Some_2 sc v) as [row Hrow]; [lia|].
        exists (h v row). rewrite lookup_map_range, Hrow. simpl.
        rewrite decide_True by lia. split; [done|].
        unfold h. rewrite Hbeta. simpl.
        apply list_lookup_insert_eq. rewrite (Hcols _ _ Hrow). lia.
      * destruct (Hdone g group') as [Hs Hc]; [lia|done|].
        split; [by rewrite list_lookup_insert_ne|].
        intros v beta Hv Hbeta.
        destruct (Hc v beta Hv Hbeta) as (row & Hrow & Hcell).
        exists (h v row). rewrite lookup_map_range, Hrow. simpl.
        rewrite decide_True by lia. split; [done|].
        unfold h. by rewrite list_lookup_insert_ne.
Qed.
End init.

Section cache_equivalence.
Context `{Collaborators}.
Local Open Scope R_scope.

(** [Mixture::init] succeeds on any Mixture, keeps the groups and
    establishes cache equivalence. *)
Lemma init_consistent shared m rng :
  ∃ m', Mixture.init shared m rng = Ok ((), m', rng) ∧
        Mixture.groups m' = Mixture.groups m ∧
        cache_consistent shared m'.
Proof.
  unfold Mixture.init.
  set (dim := to_Value (length (Shared.betas shared))).
  set (n := length (Mixture.groups m)).
  rewrite resize_rows_ok by (by rewrite length_resize). bind_simpl.
  match goal with
  | |- context [for_range 0%nat n ?body ?st] =>
      destruct (for_range_inv (filled shared (Mixture.groups m)) body
                  0%nat n st) as ([scores2 shift2] & Hloop & Hfilled)
  end.
  { unfold filled. simpl. fold dim n.
    rewrite length_map_range, !length_resize.
    split; [done|]. split; [|split; [done|intros; lia]].
    intros v row. rewrite lookup_map_range.
    destruct (resize dim [] (Mixture.scores m) !! v) as [row0|] eqn:Hrow0;
      [simpl|done].
    intros [= <-]. case_decide; [apply length_resize|].
    apply lookup_lt_Some in Hrow0. rewrite length_resize in Hrow0. lia. }
  { intros i [sc shift] Hi Hfilled.
    destruct (lookup_lt_is_Some_2 (Mixture.groups m) i) as [group Hgroup];
      [fold n; lia|].
    destruct (fill_group_ok shared (Mixture.groups m) i group sc shift
                Hfilled Hgroup) as (sc' & shift' & Hfill & Hfilled').
    cbv beta iota zeta delta [mbind result_bind] in Hfill.
    exists (sc', shift'). split; [|done].
    rewrite (vec_get_Some _ _ _ Hgroup). bind_simpl. exact Hfill. }
  rewrite Hloop. bind_simpl.
  destruct Hfilled as (Hrows & Hcols & Hshift & Hvals). simpl in *.
  fold dim n in Hrows, Hcols, Hshift, Hvals.
  rewrite vector_log_ok by lia. bind_simpl.
  rewrite (for_range_pointwise (λ row, length row = n)
             (λ _ row, map_range (λ _ x, fast_log x) 0 n row)).
  2:{ intros v s row _ Hrow Hlen.
      rewrite (vec_get_Some _ _ _ Hrow). bind_simpl.
      rewrite vector_log_ok by lia. bind_simpl.
      by rewrite (vec_set_Some _ _ _ _ Hrow). }
  2:{ intros v row _ Hrow. by eapply Hcols. }
  2:{ lia. }
  bind_simpl. eexists. split; [done|]. split; [done|].
  split.
  - unfold cache_shape. simpl. fold dim n.
    rewrite !length_map_range. split; [done|]. split; [|done].
    intros v row. rewrite lookup_map_range.
    destruct (scores2 !! v) as [row0|] eqn:Hrow0; [simpl|done].
    intros [= <-]. case_decide; [rewrite length_map_range|];
      by eapply Hcols.
  - simpl. fold n dim. intros g Hg. split.
    + intros group Hgroup. simpl.
      destruct (Hvals g group Hg Hgroup) as [Hs _].
      rewrite lookup_map_range, Hs. simpl.
      rewrite decide_True by lia. done.
    + intros v Hv group beta Hgroup Hbeta. simpl in Hgroup.
      destruct (Hvals g group Hg Hgroup) as [_ Hc].
      destruct (Hc v beta Hv Hbeta) as (row & Hrow & Hcell).
      unfold score_cell. simpl.
      rewrite lookup_map_range, Hrow. simpl.
      rewrite decide_True by lia.
      rewrite lookup_map_range, Hcell. simpl.
      rewrite decide_True by lia. done.
Qed.
End cache_equivalence.

Section preservation.
Context `{Collaborators}.
Local Open Scope R_scope.

Lemma get_count_remove c key n c' k :
  SparseCounter.remove c key = Ok (n, c') →
  SparseCounter.get_count c' k =
    if decide (k = key) then n else SparseCounter.get_count c k.
Proof.
  unfold SparseCounter.remove, SparseCounter.get_count.
  destruct (SparseCounter.count c !! key) as [old|] eqn:Hold; [|done].
  intros [= <- <-]. simpl.
  destruct (wrap32 (old + (2 ^ 32 - 1)) =? 0)%N eqn:Hz.
  - apply N.eqb_eq in Hz. case_decide as Hk.
    + subst k. by rewrite lookup_delete_eq, Hz.
    + by rewrite lookup_delete_ne.
  - case_decide as Hk.
    + subst k. by rewrite lookup_insert_eq.
    + by rewrite lookup_insert_ne.
Qed.

(** Rewriting group [groupid], cell [(value, groupid)] and shift entry
    [groupid] with the closed forms of the new group keeps the cache
    consistent when the group's other counts are unchanged. *)
Lemma update_consistent shared m groupid value group beta row c' :
  cache_consistent shared m →
  Mixture.groups m !! groupid = Some group →
  Shared.betas shared !! value = Some beta →
  Mixture.scores m !! value = Some row →
  (∀ k, k ≠ value →
     SparseCounter.get_count c' k =
       SparseCounter.get_count (Group.counts group) k) →
  cache_consistent shared
    (Mixture.mk
       (<[groupid:=Group.mk c']> (Mixture.groups m))
       (<[value:=<[groupid:=fast_log
                     (Shared.alpha shared * beta
                      + of_count (SparseCounter.get_count c' value))]>
                   row]> (Mixture.scores m))
       (<[groupid:=fast_log
            (Shared.alpha shared
             + of_count (SparseCounter.get_total c'))]>
          (Mixture.scores_shift m))).
Proof.
  intros [Hshape Hvals] Hgroup Hbeta Hrow Hother.
  split; [by apply cache_shape_update|].
  simpl. rewrite length_insert. intros g Hg.
  destruct (Hvals g Hg) as [Hshift Hcells]. split.
  - intros group'. simpl.
    destruct (decide (g = groupid)) as [->|Hne].
    + destruct Hshape as (_ & _ & Hlen).
      rewrite list_lookup_insert_eq by lia.
      rewrite list_lookup_insert_eq by (rewrite Hlen; lia).
      by intros [= <-].
    + rewrite !list_lookup_insert_ne by done. apply Hshift.
  - intros v Hv group' beta'. simpl. intros Hgroup' Hbeta'.
    rewrite score_cell_update by done.
    specialize (Hcells v Hv).
    destruct (decide (g = groupid)) as [->|Hne].
    + rewrite list_lookup_insert_eq in Hgroup' by lia.
      injection Hgroup' as <-.
      case_decide as Hcase.
      * destruct Hcase as (-> & _ & _).
        assert (beta' = beta) as -> by congruence. done.
      * rewrite (Hcells group beta' Hgroup Hbeta').
        unfold score_of. simpl.
        assert (v ≠ value) as Hvne.
        { intros ->. apply Hcase. split; [done|]. split; [done|].
          destruct Hshape as (_ & Hcols & _).
          rewrite (Hcols _ _ Hrow). lia. }
        by rewrite Hother.
    + rewrite list_lookup_insert_ne in Hgroup' by done.
      rewrite decide_False by tauto. by apply Hcells.
Qed.

(** [add_value] keeps the cache consistent. *)
Lemma add_value_consistent shared groupid value m rng :
  cache_consistent shared m →
  (groupid < length (Mixture.groups m))%nat →
  (value < to_Value (length (Shared.betas shared)))%nat →
  ∃ m', Mixture.add_value shared groupid value m rng = Ok ((), m', rng) ∧
        cache_consistent shared m'.
Proof.
  intros Hcons Hg Hv.
  destruct (cache_shape_cells shared m groupid value (proj1 Hcons) Hg Hv)
    as (group & beta & row & Hgroup & Hbeta & Hrow & Hlen & Hshift).
  pose proof (get_count_add (Group.counts group) value) as Hcount.
  destruct (SparseCounter.add (Group.counts group) value) as [n c'] eqn:Hadd.
  eexists. split; [by eapply add_value_ok|].
  assert (n = SparseCounter.get_count c' value) as ->.
  { simpl in Hcount. rewrite Hcount, decide_True by done.
    unfold SparseCounter.add in Hadd. by injection Hadd as <- _. }
  apply update_consistent with (group := group); try done.
  intros k Hk. simpl in Hcount. rewrite Hcount. by rewrite decide_False.
Qed.

(** [remove_value] of a value the group holds keeps the cache
    consistent. *)
Lemma remove_value_consistent shared groupid value m rng group :
  cache_consistent shared m →
  Mixture.groups m !! groupid = Some group →
  (value < to_Value (length (Shared.betas shared)))%nat →
  is_Some (SparseCounter.count (Group.counts group) !! value) →
  ∃ m', Mixture.remove_value shared groupid value m rng
          = Ok ((), m', rng) ∧
        cache_consistent shared m'.
Proof.
  intros Hcons Hgroup Hv [old Hold].
  assert (groupid < length (Mixture.groups m))%nat as Hg
    by (by eapply lookup_lt_Some).
  destruct (cache_shape_cells shared m groupid value (proj1 Hcons) Hg Hv)
    as (group' & beta & row & Hgroup' & Hbeta & Hrow & Hlen & Hshift).
  assert (group' = group) as -> by congruence.
  destruct (SparseCounter.remove (Group.counts group) value)
    as [[n c']|e] eqn:Hrem.
  2:{ unfold SparseCounter.remove in Hrem. by rewrite Hold in Hrem. }
  pose proof (get_count_remove _ _ _ _ value Hrem) as Hn.
  rewrite decide_True in Hn by done.
  eexists. split; [by eapply remove_value_ok|].
  rewrite <- Hn. apply update_consistent with (group := group); try done.
  intros k Hk. rewrite (get_count_remove _ _ _ _ k Hrem).
  by rewrite decide_False.
Qed.
End preservation.

Section remove_group_preserves.
Context `{Collaborators}.

(** A well-shaped Mixture whose slots are slots of a consistent Mixture,
    cache entries included, is consistent. *)
Lemma consistent_reindex shared m m' (from : nat → nat) :
  cache_consistent shared m →
  cache_shape shared m' →
  (∀ g, g < length (Mixture.groups m') →
     from g < length (Mixture.groups m) ∧
     Mixture.groups m' !! g = Mixture.groups m !! from g ∧
     Mixture.scores_shift m' !! g = Mixture.scores_shift m !! from g ∧
     ∀ value, value < to_Value (length (Shared.betas shared)) →
       score_cell m' value g = score_cell m value (from g)) →
  cache_consistent shared m'.
Proof.
  intros [_ Hvals] Hshape' Hfrom. split; [done|].
  intros g Hg. destruct (Hfrom g Hg) as (Hlt & Hgroups & Hshift & Hcells).
  destruct (Hvals (from g) Hlt) as [Hs Hc]. split.
  - intros group. rewrite Hgroups, Hshift. apply Hs.
  - intros v Hv group beta. rewrite Hgroups, (Hcells v Hv). by apply Hc.
Qed.

Lemma remove_group_last_ok shared m :
  cache_shape shared m →
  0 < length (Mixture.groups m) →
  let last := length (Mixture.groups m) - 1 in
  Mixture.remove_group shared last m =
    Ok ((),
        Mixture.mk
          (resize last (Group.mk SparseCounter.clear) (Mixture.groups m))
          (map_range (λ _ row, resize last 0%R row) 0
             (to_Value (length (Shared.betas shared))) (Mixture.scores m))
          (resize last 0%R (Mixture.scores_shift m))).
Proof.
  intros (Hrows & Hcols & Hshift) Hn last. unfold Mixture.remove_group.
  rewrite DIST_ASSERT1_lt by (unfold last; lia). bind_simpl.
  unfold last. destruct (length (Mixture.groups m)) as [|k]; [lia|].
  replace (S k - 1) with k by lia. simpl size_minus_one. bind_simpl.
  rewrite decide_False by (intros Hne; by apply Hne). bind_simpl.
  rewrite resize_rows_ok by lia. done.
Qed.

(** [remove_group] keeps the cache consistent. *)
Lemma remove_group_consistent shared groupid m :
  cache_consistent shared m →
  groupid < length (Mixture.groups m) →
  ∃ m', Mixture.remove_group shared groupid m = Ok ((), m') ∧
        length (Mixture.groups m') = length (Mixture.groups m) - 1 ∧
        cache_consistent shared m'.
Proof.
  intros Hcons Hg. pose proof Hcons as [Hshape _].
  pose proof Hshape as (Hrows & Hcols & Hshift).
  destruct (decide (groupid = length (Mixture.groups m) - 1)) as [->|Hne].
  - eexists. split; [apply remove_group_last_ok; [done|lia]|].
    split; [simpl; apply length_resize|].
    apply consistent_reindex with (m := m) (from := λ g, g); [done|..].
    + unfold cache_shape. simpl.
      rewrite length_map_range, !length_resize.
      split; [done|]. split; [|done].
      intros v row. rewrite lookup_map_range.
      destruct (Mixture.scores m !! v) as [row0|] eqn:Hrow0; [simpl|done].
      apply lookup_lt_Some in Hrow0.
      rewrite decide_True by lia. intros [= <-]. apply length_resize.
    + simpl. rewrite length_resize. intros g Hlt.
      split; [lia|]. rewrite !lookup_resize by lia.
      split; [done|]. split; [done|].
      intros v Hv. unfold score_cell. simpl. rewrite lookup_map_range.
      destruct (lookup_lt_is_Some_2 (Mixture.scores m) v) as [row Hrow];
        [lia|].
      rewrite Hrow. simpl. rewrite decide_True by lia.
      apply lookup_resize; [done|]. rewrite (Hcols _ _ Hrow). lia.
  - destruct (lookup_lt_is_Some_2 (Mixture.groups m) groupid) as [a Ha];
      [lia|].
    destruct (lookup_lt_is_Some_2 (Mixture.groups m)
                (length (Mixture.groups m) - 1)) as [b Hb]; [lia|].
    assert (groupid < length (Mixture.groups m) - 1) as Hgid by lia.
    exists (swap_removed shared groupid m a b).
    split; [by apply remove_group_ok|].
    split; [simpl; apply length_resize|].
    apply consistent_reindex with (m := m)
      (from := λ g, if decide (g = groupid)
                    then length (Mixture.groups m) - 1 else g);
      [done|by apply cache_shape_swap_removed|].
    simpl Mixture.groups at 1. rewrite length_resize. intros g Hlt.
    split; [case_decide; lia|].
    split; [by apply groups_swap_removed|].
    split; [by apply shift_swap_removed|].
    intros v Hv. by apply score_cell_swap_removed.
Qed.
End remove_group_preserves.

(** * Further properties of the Mixture *)

(** ** The cache is a function of the groups *)

Section rebuild.
Context `{Collaborators}.

(** Two consistent Mixtures over the same groups are the same Mixture. *)
Lemma consistent_unique shared m1 m2 :
  cache_consistent shared m1 →
  cache_consistent shared m2 →
  Mixture.groups m1 = Mixture.groups m2 →
  m1 = m2.
Proof.
  intros [(Hrows1 & Hcols1 & Hshift1) Hvals1]
         [(Hrows2 & Hcols2 & Hshift2) Hvals2] Hgroups.
  destruct m1 as [groups1 scores1 shift1], m2 as [groups2 scores2 shift2].
  simpl in *. subst groups2.
  pose proof (to_Value_le (length (Shared.betas shared))) as Hdim.
  f_equal.
  - apply list_eq. intros v.
    destruct (decide (v < to_Value (length (Shared.betas shared))))
      as [Hv|Hv].
    + destruct (lookup_lt_is_Some_2 scores1 v) as [row1 Hrow1]; [lia|].
      destruct (lookup_lt_is_Some_2 scores2 v) as [row2 Hrow2]; [lia|].
      destruct (lookup_lt_is_Some_2 (Shared.betas shared) v) as [beta Hbeta];
        [lia|].
      rewrite Hrow1, Hrow2. f_equal. apply list_eq. intros g.
      destruct (decide (g < length groups1)) as [Hg|Hg].
      * destruct (lookup_lt_is_Some_2 groups1 g Hg) as [group Hgroup].
        destruct (Hvals1 g Hg) as [_ Hc1]. destruct (Hvals2 g Hg) as [_ Hc2].
        specialize (Hc1 v Hv group beta Hgroup Hbeta).
        specialize (Hc2 v Hv group beta Hgroup Hbeta).
        unfold score_cell in Hc1, Hc2. simpl in Hc1, Hc2.
        rewrite Hrow1 in Hc1. rewrite Hrow2 in Hc2. simpl in Hc1, Hc2.
        by rewrite Hc1, Hc2.
      * rewrite !lookup_ge_None_2; [done|..].
        -- rewrite (Hcols2 _ _ Hrow2). lia.
        -- rewrite (Hcols1 _ _ Hrow1). lia.
    + rewrite !lookup_ge_None_2 by lia. done.
  - apply list_eq. intros g.
    destruct (decide (g < length groups1)) as [Hg|Hg].
    + destruct (lookup_lt_is_Some_2 groups1 g Hg) as [group Hgroup].
      destruct (Hvals1 g Hg) as [Hs1 _]. destruct (Hvals2 g Hg) as [Hs2 _].
      specialize (Hs1 group Hgroup). specialize (Hs2 group Hgroup).
      simpl in Hs1, Hs2. by rewrite Hs1, Hs2.
    + rewrite !lookup_ge_None_2 by lia. done.
Qed.

(** [init] over the groups of a consistent Mixture returns that Mixture,
    whatever cache it starts from. *)
Lemma init_of_consistent shared m m0 rng :
  cache_consistent shared m →
  Mixture.groups m0 = Mixture.groups m →
  Mixture.init shared m0 rng = Ok ((), m, rng).
Proof.
  intros Hcons Hgroups.
  destruct (init_consistent shared m0 rng) as (m' & Hinit & Hg' & Hcons').
  rewrite Hinit. do 3 f_equal.
  apply consistent_unique with shared; [done|done|congruence].
Qed.

(** X1.  [Mixture::init] succeeds on every Mixture, keeps the groups and
    the generator, establishes cache equivalence, and its result depends on
    the groups alone: from any other cache over the same groups, and so
    from its own result, it returns the same Mixture. *)
Theorem Mixture_init_rebuilds_cache (shared : Shared.t) (m : Mixture.t)
    (rng : rng_t) :
  ∃ m', Mixture.init shared m rng = Ok ((), m', rng) ∧
        Mixture.groups m' = Mixture.groups m ∧
        cache_consistent shared m' ∧
        (∀ m0 rng', Mixture.groups m0 = Mixture.groups m →
                    Mixture.init shared m0 rng' = Ok ((), m', rng')) ∧
        Mixture.init shared m' rng = Ok ((), m', rng).
Proof.
  destruct (init_consistent shared m rng) as (m' & Hinit & Hgroups & Hcons).
  exists m'. split; [done|]. split; [done|]. split; [done|]. split.
  - intros m0 rng' Hm0. apply init_of_consistent; [done|congruence].
  - by apply init_of_consistent.
Qed.

(** X2.  On a consistent Mixture [add_value] changes group [groupid] as
    [Group::add_value] does the group alone, and the Mixture it returns is
    the one [init] builds from scratch over the new groups: incremental
    maintenance and recomputation agree. *)
Theorem add_value_matches_rebuild (shared : Shared.t) (groupid : nat)
    (value : Value) (m : Mixture.t) (rng : rng_t) :
  cache_consistent shared m →
  groupid < length (Mixture.groups m) →
  value < to_Value (length (Shared.betas shared)) →
  ∃ m' group group',
    Mixture.add_value shared groupid value m rng = Ok ((), m', rng) ∧
    Mixture.groups m !! groupid = Some group ∧
    Group.add_value shared value group rng = Ok ((), group', rng) ∧
    Mixture.groups m' = <[groupid:=group']> (Mixture.groups m) ∧
    cache_consistent shared m' ∧
    ∀ m0 rng', Mixture.groups m0 = Mixture.groups m' →
               Mixture.init shared m0 rng' = Ok ((), m', rng').
Proof.
  intros Hcons Hg Hv.
  destruct (add_value_consistent shared groupid value m rng Hcons Hg Hv)
    as (m' & Hadd & Hcons').
  destruct (cache_shape_cells shared m groupid value (proj1 Hcons) Hg Hv)
    as (group & beta & row & Hgroup & Hbeta & Hrow & Hlen & Hshift).
  destruct (SparseCounter.add (Group.counts group) value) as [n c'] eqn:Hc.
  pose proof (add_value_ok shared groupid value m rng group beta row n c'
                Hgroup Hbeta Hrow Hlen Hshift Hc) as Hok.
  rewrite Hadd in Hok. injection Hok as Hm'.
  exists m', group, (Group.mk c').
  split; [done|]. split; [done|].
  split; [unfold Group.add_value; by rewrite Hc|].
  split; [by rewrite Hm'|]. split; [done|].
  intros m0 rng' Hm0. by apply init_of_consistent.
Qed.

(** X3.  On a consistent Mixture [remove_value] of a value the group holds
    changes group [groupid] as [Group::remove_value] does the group alone,
    and returns the Mixture [init] builds from scratch over the new
    groups. *)
Theorem remove_value_matches_rebuild (shared : Shared.t) (groupid : nat)
    (value : Value) (m : Mixture.t) (group : Group.t) (rng : rng_t) :
  cache_consistent shared m →
  Mixture.groups m !! groupid = Some group →
  value < to_Value (length (Shared.betas shared)) →
  is_Some (SparseCounter.count (Group.counts group) !! value) →
  ∃ m' group',
    Mixture.remove_value shared groupid value m rng = Ok ((), m', rng) ∧
    Group.remove_value shared value group rng = Ok ((), group', rng) ∧
    Mixture.groups m' = <[groupid:=group']> (Mixture.groups m) ∧
    cache_consistent shared m' ∧
    ∀ m0 rng', Mixture.groups m0 = Mixture.groups m' →
               Mixture.init shared m0 rng' = Ok ((), m', rng').
Proof.
  intros Hcons Hgroup Hv Hheld.
  assert (groupid < length (Mixture.groups m)) as Hg
    by (by eapply lookup_lt_Some).
  destruct (remove_value_consistent shared groupid value m rng group
              Hcons Hgroup Hv Hheld) as (m' & Hrem & Hcons').
  destruct (cache_shape_cells shared m groupid value (proj1 Hcons) Hg Hv)
    as (group0 & beta & row & Hgroup0 & Hbeta & Hrow & Hlen & Hshift).
  assert (group0 = group) as -> by congruence.
  destruct (SparseCounter.remove (Group.counts group) value)
    as [[n c']|e] eqn:Hc.
  2:{ destruct Hheld as [old Hold]. unfold SparseCounter.remove in Hc.
      by rewrite Hold in Hc. }
  pose proof (remove_value_ok shared groupid value m rng group beta row n c'
                Hgroup Hbeta Hrow Hlen Hshift Hc) as Hok.
  rewrite Hrem in Hok. injection Hok as Hm'.
  exists m', (Group.mk c').
  split; [done|].
  split; [unfold Group.remove_value; by rewrite Hc|].
  split; [by rewrite Hm'|]. split; [done|].
  intros m0 rng' Hm0. by apply init_of_consistent.
Qed.

(** X4.  On a consistent Mixture [remove_group] of any active index, the
    last one included, succeeds, leaves one group fewer, and returns the
    Mixture [init] builds from scratch over the remaining groups. *)
Theorem remove_group_matches_rebuild (shared : Shared.t) (groupid : nat)
    (m : Mixture.t) :
  cache_consistent shared m →
  groupid < length (Mixture.groups m) →
  ∃ m', Mixture.remove_group shared groupid m = Ok ((), m') ∧
        length (Mixture.groups m') = length (Mixture.groups m) - 1 ∧
        cache_consistent shared m' ∧
        ∀ m0 rng, Mixture.groups m0 = Mixture.groups m' →
                  Mixture.init shared m0 rng = Ok ((), m', rng).
Proof.
  intros Hcons Hg.
  destruct (remove_group_consistent shared groupid m Hcons Hg)
    as (m' & Hrem & Hlen & Hcons').
  exists m'. split; [done|]. split; [done|]. split; [done|].
  intros m0 rng Hm0. by apply init_of_consistent.
Qed.
End rebuild.

(** ** Growing and shrinking the group array *)

Section grow_shrink.
Context `{Collaborators}.

Lemma add_group_ok shared m rng :
  cache_shape shared m →
  Mixture.add_group shared m rng =
    Ok ((),
        Mixture.mk
          (Mixture.groups m ++ [Group.mk SparseCounter.clear])
          ((λ row, row ++ [0%R]) <$> Mixture.scores m)
          (Mixture.scores_shift m ++ [0%R]),
        rng).
Proof.
  intros (Hrows & Hcols & Hshift). unfold Mixture.add_group.
  set (n := length (Mixture.groups m)) in *.
  set (e := Group.mk SparseCounter.clear).
  assert (resize (n + 1) e (Mixture.groups m) = Mixture.groups m ++ [e])
    as ->.
  { rewrite resize_ge by (fold n; lia). fold n.
    by replace (n + 1 - n) with 1 by lia. }
  unfold vec_back. rewrite last_snoc. bind_simpl.
  unfold Group.init. bind_simpl.
  rewrite vec_set_lt by (rewrite length_app; simpl; lia). bind_simpl.
  fold e.
  assert (<[length (Mixture.groups m ++ [e]) - 1:=e]>
            (Mixture.groups m ++ [e]) = Mixture.groups m ++ [e]) as ->.
  { apply list_insert_id. rewrite length_app. simpl.
    replace (length (Mixture.groups m) + 1 - 1)
      with (length (Mixture.groups m) + 0) by lia.
    by rewrite lookup_app_r, Nat.add_0_r, Nat.sub_diag by lia. }
  rewrite resize_rows_ok by lia. bind_simpl. do 3 f_equal.
  f_equal.
  - apply list_eq. intros v.
    rewrite lookup_map_range, list_lookup_fmap.
    destruct (Mixture.scores m !! v) as [row|] eqn:Hrow; [simpl|done].
    rewrite decide_True by (apply lookup_lt_Some in Hrow; lia).
    rewrite resize_ge by (rewrite (Hcols _ _ Hrow); lia).
    rewrite (Hcols _ _ Hrow). fold n.
    by replace (n + 1 - n) with 1 by lia.
  - rewrite resize_ge by lia. rewrite Hshift.
    by replace (n + 1 - n) with 1 by lia.
Qed.

(** X5.  On a well-shaped Mixture [add_group] succeeds without drawing
    from the generator: it appends an empty group, a 0 to [scores_shift]
    and a 0 to every cache row, keeps the cache well-shaped, and leaves
    every group already present, with its shift entry and cache cells,
    where it was. *)
Theorem add_group_appends_zero_column (shared : Shared.t) (m : Mixture.t)
    (rng : rng_t) :
  cache_shape shared m →
  ∃ m',
    Mixture.add_group shared m rng = Ok ((), m', rng) ∧
    Mixture.groups m' = Mixture.groups m ++ [Group.mk SparseCounter.clear] ∧
    Mixture.scores_shift m' = Mixture.scores_shift m ++ [0%R] ∧
    Mixture.scores m' = (λ row, row ++ [0%R]) <$> Mixture.scores m ∧
    cache_shape shared m' ∧
    ∀ g, g < length (Mixture.groups m) →
      Mixture.groups m' !! g = Mixture.groups m !! g ∧
      Mixture.scores_shift m' !! g = Mixture.scores_shift m !! g ∧
      ∀ value, score_cell m' value g = score_cell m value g.
Proof.
  intros Hshape. pose proof Hshape as (Hrows & Hcols & Hshift).
  eexists. split; [by apply add_group_ok|]. simpl.
  split; [done|]. split; [done|]. split; [done|]. split.
  - unfold cache_shape. simpl.
    rewrite length_fmap, !length_app. simpl.
    split; [done|]. split; [|lia].
    intros v row'. rewrite list_lookup_fmap.
    destruct (Mixture.scores m !! v) as [row|] eqn:Hrow; [simpl|done].
    intros [= <-]. rewrite length_app, (Hcols _ _ Hrow). done.
  - intros g Hg. rewrite !lookup_app_l by lia.
    split; [done|]. split; [done|].
    intros v. unfold score_cell. simpl. rewrite list_lookup_fmap.
    destruct (Mixture.scores m !! v) as [row|] eqn:Hrow; [simpl|done].
    rewrite lookup_app_l; [done|]. rewrite (Hcols _ _ Hrow). lia.
Qed.

(** X6.  On a well-shaped Mixture with at least one group, [remove_group]
    of the last index moves nothing: it drops the last group, the last
    shift entry and the last cell of every cache row. *)
Theorem remove_last_group_truncates (shared : Shared.t) (m : Mixture.t) :
  cache_shape shared m →
  0 < length (Mixture.groups m) →
  let last := length (Mixture.groups m) - 1 in
  ∃ m',
    Mixture.remove_group shared last m = Ok ((), m') ∧
    Mixture.groups m' = take last (Mixture.groups m) ∧
    Mixture.scores_shift m' = take last (Mixture.scores_shift m) ∧
    Mixture.scores m' = take last <$> Mixture.scores m ∧
    cache_shape shared m'.
Proof.
  intros Hshape Hn last. pose proof Hshape as (Hrows & Hcols & Hshift).
  assert (map_range (λ _ row, resize last 0%R row) 0
            (to_Value (length (Shared.betas shared))) (Mixture.scores m)
          = take last <$> Mixture.scores m) as Hscores.
  { apply list_eq. intros v.
    rewrite lookup_map_range, list_lookup_fmap.
    destruct (Mixture.scores m !! v) as [row|] eqn:Hrow; [simpl|done].
    rewrite decide_True by (apply lookup_lt_Some in Hrow; lia).
    rewrite resize_le; [done|]. rewrite (Hcols _ _ Hrow). unfold last. lia. }
  eexists. split; [by apply remove_group_last_ok|]. simpl. fold last.
  split; [apply resize_le; unfold last; lia|].
  split; [apply resize_le; unfold last; lia|].
  split; [done|].
  unfold cache_shape. simpl. fold last.
  rewrite Hscores, length_fmap, !length_resize.
  split; [done|]. split; [|done].
  intros v row'. rewrite list_lookup_fmap.
  destruct (Mixture.scores m !! v) as [row|] eqn:Hrow; [simpl|done].
  intros [= <-]. rewrite length_take, (Hcols _ _ Hrow). unfold last. lia.
Qed.

(** X7.  [add_group] followed by [remove_group] of the new, last index is
    the identity on a well-shaped Mixture: groups and cache come back
    exactly. *)
Theorem add_then_remove_group (shared : Shared.t) (m : Mixture.t)
    (rng : rng_t) :
  cache_shape shared m →
  ∃ m', Mixture.add_group shared m rng = Ok ((), m', rng) ∧
        Mixture.remove_group shared (length (Mixture.groups m)) m'
          = Ok ((), m).
Proof.
  intros Hshape. pose proof Hshape as (Hrows & Hcols & Hshift).
  eexists. split; [by apply add_group_ok|].
  match goal with |- Mixture.remove_group _ _ ?m1 = _ => set (m' := m1) end.
  assert (cache_shape shared m') as Hshape'.
  { unfold cache_shape, m'. simpl.
    rewrite length_fmap, !length_app. simpl.
    split; [done|]. split; [|lia].
    intros v row'. rewrite list_lookup_fmap.
    destruct (Mixture.scores m !! v) as [row|] eqn:Hrow; [simpl|done].
    intros [= <-]. rewrite length_app, (Hcols _ _ Hrow). done. }
  assert (length (Mixture.groups m') - 1 = length (Mixture.groups m))
    as Hlast.
  { unfold m'. simpl. rewrite length_app. simpl. lia. }
  rewrite <- Hlast at 1.
  rewrite remove_group_last_ok;
    [|done|unfold m'; simpl; rewrite length_app; simpl; lia].
  rewrite Hlast. unfold m'. simpl.
  destruct m as [groups scores shift]. simpl in *. do 2 f_equal.
  f_equal.
  - by apply resize_app.
  - apply list_eq. intros v.
    rewrite lookup_map_range, list_lookup_fmap.
    destruct (scores !! v) as [row|] eqn:Hrow; [simpl|done].
    rewrite decide_True by (apply lookup_lt_Some in Hrow; lia).
    f_equal. apply resize_app. by rewrite (Hcols _ _ Hrow).
  - by apply resize_app.
Qed.
End grow_shrink.

(** ** What the value mutators write, and what they assert *)

Section written_cells.
Context `{Collaborators}.

Lemma vec_get_ge {A} (v : list A) i :
  length v ≤ i → vec_get v i = Fail OutOfBounds.
Proof. intros Hi. unfold vec_get. by rewrite lookup_ge_None_2. Qed.

(** X8.  On a well-shaped Mixture, whatever its cache holds, [add_value]
    leaves in [scores[value][groupid]] and [scores_shift[groupid]] the
    closed forms of the group as it is after the call; so does
    [remove_value] when the group holds the value. *)
Theorem value_mutators_write_closed_forms (shared : Shared.t)
    (groupid : nat) (value : Value) (m : Mixture.t) (rng : rng_t) :
  cache_shape shared m →
  groupid < length (Mixture.groups m) →
  value < to_Value (length (Shared.betas shared)) →
  (∃ m', Mixture.add_value shared groupid value m rng = Ok ((), m', rng) ∧
         cell_consistent shared m' groupid value ∧
         shift_consistent shared m' groupid) ∧
  (∀ group,
     Mixture.groups m !! groupid = Some group →
     is_Some (SparseCounter.count (Group.counts group) !! value) →
     ∃ m', Mixture.remove_value shared groupid value m rng
             = Ok ((), m', rng) ∧
           cell_consistent shared m' groupid value ∧
           shift_consistent shared m' groupid).
Proof.
  intros Hshape Hg Hv.
  destruct (cache_shape_cells shared m groupid value Hshape Hg Hv)
    as (group & beta & row & Hgroup & Hbeta & Hrow & Hlen & Hshift).
  assert (∀ n c',
    SparseCounter.get_count c' value = n →
    let m' :=
      Mixture.mk
        (<[groupid:=Group.mk c']> (Mixture.groups m))
        (<[value:=<[groupid:=fast_log (Shared.alpha shared * beta
                                       + of_count n)%R]> row]>
           (Mixture.scores m))
        (<[groupid:=fast_log (Shared.alpha shared
                              + of_count (SparseCounter.get_total c'))%R]>
           (Mixture.scores_shift m)) in
    cell_consistent shared m' groupid value ∧
    shift_consistent shared m' groupid) as Hwritten.
  { intros n c' Hn m'. split.
    - intros group' beta'. unfold m'. simpl.
      rewrite list_lookup_insert_eq by done. intros [= <-] Hbeta'.
      assert (beta' = beta) as -> by congruence.
      rewrite score_cell_update by done.
      rewrite decide_True by done. unfold score_of. simpl. by rewrite Hn.
    - intros group'. unfold m'. simpl.
      rewrite !list_lookup_insert_eq by done. by intros [= <-]. }
  split.
  - pose proof (get_count_add (Group.counts group) value value) as Hcount.
    destruct (SparseCounter.add (Group.counts group) value) as [n c'] eqn:Hadd.
    eexists. split; [by eapply add_value_ok|].
    apply Hwritten. simpl in Hcount. rewrite Hcount, decide_True by done.
    unfold SparseCounter.add in Hadd. by injection Hadd as <- _.
  - intros group' Hgroup' [old Hold].
    assert (group' = group) as -> by congruence.
    destruct (SparseCounter.remove (Group.counts group) value)
      as [[n c']|e] eqn:Hrem.
    2:{ unfold SparseCounter.remove in Hrem. by rewrite Hold in Hrem. }
    eexists. split; [by eapply remove_value_ok|].
    apply Hwritten. rewrite (get_count_remove _ _ _ _ value Hrem).
    by rewrite decide_True.
Qed.

Lemma remove_group_rejects shared groupid m :
  length (Mixture.groups m) ≤ groupid →
  fails (Mixture.remove_group shared groupid m).
Proof.
  intros Hout. unfold fails, Mixture.remove_group.
  destruct (DIST_ASSERT1 _) as [[]|e1]; [bind_simpl|by eexists].
  destruct (length (Mixture.groups m)) as [|k] eqn:Hn;
    [by eexists|].
  simpl size_minus_one. bind_simpl.
  rewrite decide_True by lia.
  rewrite (vec_get_ge (Mixture.groups m)) by lia.
  by eexists.
Qed.



End written_cells.

(** ** The buffer of the batched query *)

Section accumulator.
Context `{Collaborators}.


(** X11.  With the debug-only checks compiled out (debug level below 2),
    [Mixture::score_value] accepts a buffer longer than the group count:
    it succeeds, keeps the length, accumulates into the entries of the
    groups and leaves the entries beyond the group count as they were. *)
Theorem score_value_long_buffer (shared : Shared.t) (value : Value)
    (accum : VectorFloat) (m : Mixture.t) (rng : rng_t) :
  DIST_DEBUG_LEVEL < 2 →
  cache_shape shared m →
  value < to_Value (length (Shared.betas shared)) →
  length (Mixture.groups m) ≤ length accum →
  ∃ accum',
    Mixture.score_value shared value accum m rng = Ok ((), accum', rng) ∧
    length accum' = length accum ∧
    (∀ g, g < length (Mixture.groups m) →
       ∃ old score shift,
         accum !! g = Some old ∧
         score_cell m value g = Some score ∧
         Mixture.scores_shift m !! g = Some shift ∧
         accum' !! g = Some (old + (score - shift))%R) ∧
    (∀ i, length (Mixture.groups m) ≤ i → accum' !! i = accum !! i).
Proof.
  intros Hlevel (Hrows & Hcols & Hshift) Hv Hacc.
  pose proof (to_Value_le (length (Shared.betas shared))) as Hdim.
  destruct (lookup_lt_is_Some_2 (Mixture.scores m) value) as [row Hrow];
    [lia|].
  eexists. split.
  { unfold Mixture.score_value.
    rewrite DIST_ASSERT1_lt by lia. bind_simpl.
    rewrite (proj2 (Nat.leb_gt 2 DIST_DEBUG_LEVEL) Hlevel). bind_simpl.
    rewrite (vec_get_Some _ _ _ Hrow). bind_simpl.
    rewrite vector_add_subtract_ok; [done|lia|..].
    - rewrite (Hcols _ _ Hrow). lia.
    - lia. }
  split; [apply length_map_range|]. split.
  - intros g Hg.
    destruct (lookup_lt_is_Some_2 accum g) as [old Hold]; [lia|].
    destruct (lookup_lt_is_Some_2 row g) as [score Hscore].
    { by rewrite (Hcols _ _ Hrow). }
    destruct (lookup_lt_is_Some_2 (Mixture.scores_shift m) g)
      as [shift Hsh]; [lia|].
    exists old, score, shift. split; [done|].
    split; [unfold score_cell; by rewrite Hrow|]. split; [done|].
    rewrite lookup_map_range, Hold, Hscore, Hsh. simpl.
    rewrite decide_True by lia. done.
  - intros i Hi. rewrite lookup_map_range.
    destruct (accum !! i); [simpl|done]. by rewrite decide_False by lia.
Qed.

(** X12.  [init] followed by [score_value]: on any Mixture, for a value
    below [dim] and a buffer with one entry per group, the batched query
    after [init] adds to entry [g] the closed forms computed from group
    [g] itself, [log (alpha * betas[value] + count)] minus
    [log (alpha + total)], whatever the cache held before [init]. *)
Theorem init_then_score_value (shared : Shared.t) (value : Value)
    (accum : VectorFloat) (m : Mixture.t) (rng : rng_t) :
  value < to_Value (length (Shared.betas shared)) →
  length accum = length (Mixture.groups m) →
  ∃ m' accum',
    Mixture.init shared m rng = Ok ((), m', rng) ∧
    Mixture.score_value shared value accum m' rng = Ok ((), accum', rng) ∧
    ∀ g group beta old,
      Mixture.groups m !! g = Some group →
      Shared.betas shared !! value = Some beta →
      accum !! g = Some old →
      accum' !! g =
        Some (old + (score_of shared beta group value
                     - shift_of shared group))%R.
Proof.
  intros Hv Hacc.
  destruct (init_consistent shared m rng)
    as (m' & Hinit & Hgroups & [Hshape Hvals]).
  pose proof Hshape as (Hrows & Hcols & Hshift).
  pose proof (to_Value_le (length (Shared.betas shared))) as Hdim.
  destruct (lookup_lt_is_Some_2 (Mixture.scores m') value) as [row Hrow];
    [lia|].
  exists m'. eexists. split; [done|]. split.
  { apply score_value_ok with (row := row); [lia|done|congruence|..].
    - by eapply Hcols.
    - done. }
  intros g group beta old Hgroup Hbeta Hold.
  rewrite <- Hgroups in Hgroup.
  assert (g < length (Mixture.groups m')) as Hg by (by eapply lookup_lt_Some).
  destruct (Hvals g Hg) as [Hs Hc].
  specialize (Hs group Hgroup). specialize (Hc value Hv group beta Hgroup Hbeta).
  unfold score_cell in Hc. rewrite Hrow in Hc. simpl in Hc.
  rewrite lookup_map_range, Hold. simpl.
  rewrite decide_True by lia. by rewrite Hc, Hs.
Qed.
End accumulator.

(** ** Scorer and the free scoring operations *)

Section scoring.
Context `{Collaborators}.
Local Open Scope R_scope.

(** A loop over pairs fails with [e] if its body fails with [e] at one of
    the pairs on every state the other iterations can leave, and fails in
    no other way. *)
Lemma for_each_fails_with {X St} (P : St → Prop) (e : failure)
    (body : X → St → result St) (xs : list X) (s : St) (x : X) :
  x ∈ xs →
  P s →
  (∀ y s, y ∈ xs → P s →
          (∃ s', body y s = Ok s' ∧ P s') ∨ body y s = Fail e) →
  (∀ s, P s → body x s = Fail e) →
  for_each xs body s = Fail e.
Proof.
  revert s. induction xs as [|y xs IH]; intros s Hx Hs Hstep Hfail.
  - by apply elem_of_nil in Hx.
  - simpl. destruct (Hstep y s) as [(s' & Hy & Hs')| Hy]; [left|done|..].
    + rewrite Hy. bind_simpl.
      apply elem_of_cons in Hx as [->|Hx].
      * rewrite (Hfail s Hs) in Hy. done.
      * apply IH; [done|done| |done].
        intros z s0 Hz. apply Hstep. by right.
    + by rewrite Hy.
Qed.

(** The first loop of [Scorer::init]. *)
Lemma Scorer_init_betas shared (scale : float) (sc0 : VectorFloat) :
  length sc0 = length (Shared.betas shared) →
  ∃ sc1,
    for_range 0 (length (Shared.betas shared))
      (λ i sc,
         beta ← vec_get (Shared.betas shared) i;
         vec_set sc i (scale * beta)) sc0 = Ok sc1 ∧
    length sc1 = length (Shared.betas shared).
Proof.
  intros Hlen. eexists. split.
  - apply (for_range_pointwise (λ _, True)
             (λ i _, scale * default 0 (Shared.betas shared !! i)));
      [|done|lia].
    intros i sc x Hi Hx _.
    destruct (lookup_lt_is_Some_2 (Shared.betas shared) i) as [b Hb]; [lia|].
    rewrite (vec_get_Some _ _ _ Hb). bind_simpl.
    rewrite (vec_set_Some _ _ _ _ Hx). by rewrite Hb.
  - by rewrite length_map_range.
Qed.

Lemma for_each_outcome {X St} (P : St → Prop) (e : failure)
    (body : X → St → result St) (xs : list X) (s : St) :
  P s →
  (∀ y s, P s → (∃ s', body y s = Ok s' ∧ P s') ∨ body y s = Fail e) →
  (∃ s', for_each xs body s = Ok s' ∧ P s') ∨ for_each xs body s = Fail e.
Proof.
  revert s. induction xs as [|y xs IH]; intros s Hs Hstep.
  - left. by exists s.
  - simpl. destruct (Hstep y s Hs) as [(s' & Hy & Hs')|Hy].
    + rewrite Hy. bind_simpl. by apply IH.
    + right. by rewrite Hy.
Qed.

(** One iteration of the second loop of [Scorer::init] on a buffer of
    [betas.size()] entries. *)
Lemma Scorer_init_step shared (scale : float) (i : Value * count_t)
    (sc : VectorFloat) :
  length sc = length (Shared.betas shared) →
  let body :=
    DIST_ASSERT (i.1 <? length (Shared.betas shared))%nat;;
    x ← vec_get sc i.1;
    vec_set sc i.1 (x + scale * of_count i.2) in
  ((i.1 < length (Shared.betas shared))%nat ∧
   ∃ sc', body = Ok sc' ∧ length sc' = length (Shared.betas shared)) ∨
  ((length (Shared.betas shared) ≤ i.1)%nat ∧ body = Fail AssertionFailed).
Proof.
  intros Hlen body. unfold body.
  destruct (decide (i.1 < length (Shared.betas shared))%nat) as [Hk|Hk].
  - left. split; [done|].
    rewrite (proj2 (Nat.ltb_lt _ _) Hk), DIST_ASSERT_true. bind_simpl.
    destruct (lookup_lt_is_Some_2 sc i.1) as [x Hx]; [lia|].
    rewrite (vec_get_Some _ _ _ Hx). bind_simpl.
    rewrite (vec_set_Some _ _ _ _ Hx). eexists. split; [done|].
    by rewrite length_insert.
  - right. split; [lia|]. by rewrite (proj2 (Nat.ltb_ge _ _)) by lia.
Qed.

(** [Scorer::init] either fails with the assertion or leaves
    [betas.size()] scores. *)
Lemma Scorer_init_outcome shared group s rng :
  (∃ sc, Scorer.init shared group s rng = Ok ((), Scorer.mk sc, rng) ∧
         length sc = length (Shared.betas shared)) ∨
  Scorer.init shared group s rng = Fail AssertionFailed.
Proof.
  unfold Scorer.init.
  destruct (Scorer_init_betas shared
              (Shared.alpha shared
               / (Shared.alpha shared
                  + of_count (SparseCounter.get_total (Group.counts group))))
              (resize (length (Shared.betas shared)) 0 (Scorer.scores s)))
    as (sc1 & Hloop & Hlen1); [apply length_resize|].
  rewrite Hloop. bind_simpl.
  match goal with
  | |- context [for_each ?xs ?body ?st] =>
      destruct (for_each_outcome
                  (λ sc, length sc = length (Shared.betas shared))
                  AssertionFailed body xs st Hlen1)
        as [(sc2 & Hloop2 & Hlen2)|Hfail]
  end.
  - intros i sc Hsc.
    destruct (Scorer_init_step shared
                (1 / (Shared.alpha shared
                      + of_count (SparseCounter.get_total
                                    (Group.counts group)))) i sc Hsc)
      as [[_ Hok]|[_ Hno]]; [left; exact Hok|right; exact Hno].
  - left. exists sc2. by rewrite Hloop2.
  - right. by rewrite Hfail.
Qed.

Lemma Scorer_init_rejects shared group s rng key :
  is_Some (SparseCounter.count (Group.counts group) !! key) →
  (length (Shared.betas shared) ≤ key)%nat →
  Scorer.init shared group s rng = Fail AssertionFailed.
Proof.
  intros [c Hc] Hkey. unfold Scorer.init.
  destruct (Scorer_init_betas shared
              (Shared.alpha shared
               / (Shared.alpha shared
                  + of_count (SparseCounter.get_total (Group.counts group))))
              (resize (length (Shared.betas shared)) 0 (Scorer.scores s)))
    as (sc1 & Hloop & Hlen1); [apply length_resize|].
  rewrite Hloop. bind_simpl.
  rewrite (for_each_fails_with
             (λ sc, length sc = length (Shared.betas shared))
             AssertionFailed _ _ _ (key, c)); [done| |done| | ].
  - by apply elem_of_map_to_list.
  - intros i sc _ Hsc.
    destruct (Scorer_init_step shared
                (1 / (Shared.alpha shared
                      + of_count (SparseCounter.get_total
                                    (Group.counts group)))) i sc Hsc)
      as [[_ Hok]|[_ Hno]]; [left; exact Hok|right; exact Hno].
  - intros sc Hsc.
    destruct (Scorer_init_step shared
                (1 / (Shared.alpha shared
                      + of_count (SparseCounter.get_total
                                    (Group.counts group)))) (key, c) sc Hsc)
      as [[Hlt _]|[_ Hno]]; [simpl in Hlt; lia|exact Hno].
Qed.

Lemma Scorer_scores_ok shared group s rng value beta :
  values_in_range shared group →
  Shared.betas shared !! value = Some beta →
  ∃ sc,
    Scorer.init shared group s rng = Ok ((), Scorer.mk sc, rng) ∧
    Scorer.eval shared value (Scorer.mk sc) rng
      = Ok (fast_log (predictive shared group beta value), rng).
Proof.
  intros Hkeys Hbeta.
  destruct (Scorer_init_ok shared group s rng Hkeys)
    as (sc & Hinit & _ & Hsc).
  specialize (Hsc value beta Hbeta). cbv zeta in Hsc.
  exists sc. split; [done|].
  assert (sc !! value = Some (predictive shared group beta value)) as Hv.
  { rewrite Hsc. f_equal. unfold predictive, SparseCounter.get_count.
    destruct (SparseCounter.count (Group.counts group) !! value);
      simpl; [done|].
    rewrite of_count_0. lra. }
  by apply Scorer_eval_ok.
Qed.

Lemma free_score_value_ok shared group value beta rng :
  values_in_range shared group →
  Shared.betas shared !! value = Some beta →
  score_value shared group value rng
    = Ok (fast_log (predictive shared group beta value), rng).
Proof.
  intros Hkeys Hbeta.
  destruct (Scorer_scores_ok shared group (Scorer.mk []) rng value beta
              Hkeys Hbeta) as (sc & Hinit & Heval).
  unfold score_value. rewrite Hinit. bind_simpl. done.
Qed.

(** X13.  For a group whose values are all below [betas.size()] and a
    value below it, the free [score_value] returns the logarithm of
    [alpha / (alpha + total) * betas[value] + 1 / (alpha + total) * count],
    with count 0 for a value the group does not hold, and hands the
    generator back; [Scorer::init] then [Scorer::eval] return the same from
    any prior contents of the Scorer. *)
Theorem score_value_closed_form (shared : Shared.t) (group : Group.t)
    (value : Value) (beta : float) (s : Scorer.t) (rng : rng_t) :
  values_in_range shared group →
  Shared.betas shared !! value = Some beta →
  score_value shared group value rng
    = Ok (fast_log (predictive shared group beta value), rng) ∧
  ∃ s', Scorer.init shared group s rng = Ok ((), s', rng) ∧
        Scorer.eval shared value s' rng
          = Ok (fast_log (predictive shared group beta value), rng).
Proof.
  intros Hkeys Hbeta. split.
  - by apply free_score_value_ok.
  - destruct (Scorer_scores_ok shared group s rng value beta Hkeys Hbeta)
      as (sc & Hinit & Heval).
    by exists (Scorer.mk sc).
Qed.

(** X14.  The Scorer's checks are always compiled in: at every debug
    level the free [score_value] fails with the assertion when the group
    holds a value that is not below [betas.size()], so does
    [Scorer::init], and it fails with the assertion for a candidate value
    that is not below [betas.size()]. *)
Theorem score_value_rejects (shared : Shared.t) (group : Group.t)
    (value : Value) (s : Scorer.t) (rng : rng_t) :
  (∀ key,
     is_Some (SparseCounter.count (Group.counts group) !! key) →
     (length (Shared.betas shared) ≤ key)%nat →
     Scorer.init shared group s rng = Fail AssertionFailed ∧
     score_value shared group value rng = Fail AssertionFailed) ∧
  ((length (Shared.betas shared) ≤ value)%nat →
   score_value shared group value rng = Fail AssertionFailed).
Proof.
  split.
  - intros key Hheld Hkey.
    split; [by eapply Scorer_init_rejects|].
    unfold score_value.
    by rewrite (Scorer_init_rejects shared group _ rng key).
  - intros Hvalue. unfold score_value.
    destruct (Scorer_init_outcome shared group (Scorer.mk []) rng)
      as [(sc & Hinit & Hlen)|Hfail].
    + rewrite Hinit. bind_simpl. unfold Scorer.eval. simpl Scorer.scores.
      rewrite Hlen. by rewrite (proj2 (Nat.ltb_ge _ _)) by lia.
    + by rewrite Hfail.
Qed.
End scoring.

(** ** The evidence of a group *)

Section evidence.
Context `{Collaborators}.
Local Open Scope R_scope.

Lemma score_group_step shared (i : Value * count_t) (score : float) :
  let body :=
    DIST_ASSERT (i.1 <? length (Shared.betas shared))%nat;;
    beta ← vec_get (Shared.betas shared) i.1;
    Ok (score + (fast_lgamma (beta * Shared.alpha shared + of_count i.2)
                 - fast_lgamma (beta * Shared.alpha shared))) in
  ((i.1 < length (Shared.betas shared))%nat ∧
   body = Ok (score + evidence_term shared i)) ∨
  ((length (Shared.betas shared) ≤ i.1)%nat ∧ body = Fail AssertionFailed).
Proof.
  intros body. unfold body.
  destruct (decide (i.1 < length (Shared.betas shared))%nat) as [Hk|Hk].
  - left. split; [done|].
    rewrite (proj2 (Nat.ltb_lt _ _) Hk), DIST_ASSERT_true. bind_simpl.
    destruct (lookup_lt_is_Some_2 (Shared.betas shared) i.1) as [b Hb];
      [done|].
    rewrite (vec_get_Some _ _ _ Hb). bind_simpl.
    unfold evidence_term. by rewrite Hb.
  - right. split; [lia|]. by rewrite (proj2 (Nat.ltb_ge _ _)) by lia.
Qed.

Lemma score_group_ok shared group rng :
  values_in_range shared group →
  score_group shared group rng =
    Ok (0 + evidence_sum shared (SparseCounter.items (Group.counts group))
        + (fast_lgamma (Shared.alpha shared)
           - fast_lgamma
               (Shared.alpha shared
                + of_count (SparseCounter.get_total (Group.counts group)))),
        rng).
Proof.
  intros Hkeys. unfold score_group.
  assert (∀ l s0,
    (∀ i, i ∈ l → (i.1 < length (Shared.betas shared))%nat) →
    for_each l
      (λ i score,
         let value := i.1 in
         DIST_ASSERT (value <? length (Shared.betas shared))%nat;;
         beta ← vec_get (Shared.betas shared) value;
         let prior_i := beta * Shared.alpha shared in
         Ok (score + (fast_lgamma (prior_i + of_count i.2)
                      - fast_lgamma prior_i))) s0
    = Ok (s0 + evidence_sum shared l)) as Hloop.
  { induction l as [|i l IH]; intros s0 Hl.
    - simpl. f_equal. lra.
    - simpl. cbv zeta.
      destruct (score_group_step shared i s0) as [[_ Hok]|[Hge _]].
      + cbv zeta in Hok. rewrite Hok. bind_simpl.
        rewrite IH by (intros j Hj; apply Hl; by right).
        f_equal. lra.
      + specialize (Hl i ltac:(left)). lia. }
  rewrite Hloop; [done|].
  intros [k c] Hi. apply elem_of_map_to_list in Hi. simpl.
  apply Hkeys. by exists c.
Qed.

Lemma score_group_rejects shared group rng key :
  is_Some (SparseCounter.count (Group.counts group) !! key) →
  (length (Shared.betas shared) ≤ key)%nat →
  score_group shared group rng = Fail AssertionFailed.
Proof.
  intros [c Hc] Hkey. unfold score_group.
  rewrite (for_each_fails_with (λ _, True) AssertionFailed _ _ _ (key, c));
    [done| |done| | ].
  - by apply elem_of_map_to_list.
  - intros i score _ _. cbv zeta.
    destruct (score_group_step shared i score) as [[_ Hok]|[_ Hno]].
    + left. eexists. split; [exact Hok|done].
    + right. exact Hno.
  - intros score _. cbv zeta.
    destruct (score_group_step shared (key, c) score)
      as [[Hlt _]|[_ Hno]]; [simpl in Hlt; lia|exact Hno].
Qed.

(** X15.  [score_group] returns exactly for the groups whose values are
    all below [betas.size()], and then the sum of the terms of the pairs
    plus [lgamma alpha - lgamma (alpha + total)] with the generator
    untouched; for every other group it fails with the assertion, at every
    debug level. *)
Theorem score_group_returns_iff (shared : Shared.t) (group : Group.t)
    (rng : rng_t) :
  (values_in_range shared group ↔
   score_group shared group rng =
     Ok (0 + evidence_sum shared (SparseCounter.items (Group.counts group))
         + (fast_lgamma (Shared.alpha shared)
            - fast_lgamma
                (Shared.alpha shared
                 + of_count (SparseCounter.get_total (Group.counts group)))),
         rng)) ∧
  (¬ values_in_range shared group ↔
   score_group shared group rng = Fail AssertionFailed).
Proof.
  assert (score_group shared group rng = Fail AssertionFailed →
          ¬ values_in_range shared group) as Hfail.
  { intros Hf Hkeys. rewrite (score_group_ok _ _ _ Hkeys) in Hf. done. }
  assert (∀ x, score_group shared group rng = Ok x →
               values_in_range shared group) as Hok.
  { intros x Hx key Hheld.
    destruct (decide (key < length (Shared.betas shared))%nat) as [|Hge];
      [done|].
    rewrite (score_group_rejects shared group rng key) in Hx; [done|done|].
    lia. }
  split; split.
  - apply score_group_ok.
  - apply Hok.
  - intros Hno.
    destruct (score_group shared group rng) as [x|e] eqn:Hsg.
    + destruct Hno. by eapply Hok.
    + revert Hsg. unfold score_group.
      match goal with
      | |- context [for_each ?xs ?body ?st] =>
          destruct (for_each_outcome (λ _, True) AssertionFailed body xs st I)
            as [(x & Hloop & _)|Hloop]
      end.
      * intros i score _. cbv zeta.
        destruct (score_group_step shared i score) as [[_ Hs]|[_ Hs]].
        -- left. eexists. split; [exact Hs|done].
        -- right. exact Hs.
      * rewrite Hloop. done.
      * rewrite Hloop. by intros [= <-].
  - apply Hfail.
Qed.
End evidence.

Section chain_rule.
Context `{Collaborators}.
Local Open Scope R_scope.

Lemma evidence_sum_perm shared (l l' : list (Value * count_t)) :
  l ≡ₚ l' → evidence_sum shared l = evidence_sum shared l'.
Proof.
  induction 1 as [|i l l' _ IH|i j l|l l' l'' _ IH1 _ IH2]; simpl.
  - done.
  - by rewrite IH.
  - lra.
  - by rewrite IH1.
Qed.

Lemma of_count_succ c : of_count (c + 1) = of_count c + 1.
Proof. unfold of_count. by rewrite N2Z.inj_add, plus_IZR. Qed.

(** The sum of the terms after the count of [value] went from [c] to
    [c + 1]. *)
Lemma evidence_sum_add shared (counts : gmap nat N) value :
  let c := default 0%N (counts !! value) in
  evidence_sum shared (map_to_list (<[value:=(c + 1)%N]> counts))
  + match counts !! value with
    | Some _ => evidence_term shared (value, c)
    | None => 0
    end
  = evidence_sum shared (map_to_list counts)
    + evidence_term shared (value, (c + 1)%N).
Proof.
  intros c.
  rewrite <- (insert_delete_eq counts).
  rewrite (evidence_sum_perm shared _ _
             (map_to_list_insert (delete value counts) value (c + 1)%N
                (lookup_delete_eq counts value))).
  simpl. destruct (counts !! value) as [c0|] eqn:Hc.
  - rewrite <- (evidence_sum_perm shared _ _
                  (map_to_list_delete counts value c0 Hc)).
    simpl. unfold c. simpl. lra.
  - rewrite (delete_id counts value Hc). lra.
Qed.

(** X16.  Chain rule of the evidence.  In exact arithmetic, with a
    log-gamma that satisfies [lgamma (x + 1) = lgamma x + log x] and a
    logarithm that turns quotients into differences on the positive reals:
    for a group in range whose count and total do not overflow, adding
    [value] raises [score_group] by exactly what the free [score_value]
    returns for [value] before the addition. *)
Theorem evidence_chain_rule (shared : Shared.t) (group : Group.t)
    (value : Value) (beta : float) (rng : rng_t) :
  (∀ x, 0 < x → fast_lgamma (x + 1) = fast_lgamma x + fast_log x) →
  (∀ x y, 0 < x → 0 < y → fast_log (x / y) = fast_log x - fast_log y) →
  values_in_range shared group →
  Shared.betas shared !! value = Some beta →
  (SparseCounter.get_count (Group.counts group) value < 2 ^ 32 - 1)%N →
  (SparseCounter.get_total (Group.counts group) < 2 ^ 32 - 1)%N →
  0 < Shared.alpha shared
      + of_count (SparseCounter.get_total (Group.counts group)) →
  0 < Shared.alpha shared * beta
      + of_count (SparseCounter.get_count (Group.counts group) value) →
  ∃ group' before after gain,
    Group.add_value shared value group rng = Ok ((), group', rng) ∧
    score_group shared group rng = Ok (before, rng) ∧
    score_group shared group' rng = Ok (after, rng) ∧
    score_value shared group value rng = Ok (gain, rng) ∧
    after = before + gain.
Proof.
  intros Hgamma Hlog Hkeys Hbeta Hcount Htotal Hpos_total Hpos_count.
  set (counts := SparseCounter.count (Group.counts group)).
  set (c := SparseCounter.get_count (Group.counts group) value) in *.
  set (t := SparseCounter.get_total (Group.counts group)) in *.
  set (group' := Group.mk (SparseCounter.mk (<[value:=(c + 1)%N]> counts)
                                            (t + 1)%N)).
  assert (Group.add_value shared value group rng = Ok ((), group', rng))
    as Hadd.
  { unfold Group.add_value, SparseCounter.add, group'.
    fold c counts. unfold SparseCounter.get_total in t. fold t.
    rewrite !wrap32_small by lia. done. }
  assert (values_in_range shared group') as Hkeys'.
  { intros key [c' Hc']. unfold group' in Hc'. simpl in Hc'.
    destruct (decide (key = value)) as [->|Hne].
    - by eapply lookup_lt_Some.
    - rewrite lookup_insert_ne in Hc' by done. apply Hkeys. by exists c'. }
  exists group'. eexists _, _, _.
  split; [done|].
  split; [by apply score_group_ok|].
  split; [by apply score_group_ok|].
  split; [by apply free_score_value_ok|].
  unfold SparseCounter.items, group'. simpl SparseCounter.count.
  simpl SparseCounter.get_total. fold counts t.
  pose proof (evidence_sum_add shared counts value) as Hsum.
  cbv zeta in Hsum.
  change (default 0%N (counts !! value)) with c in Hsum.
  unfold evidence_term in Hsum. simpl in Hsum. rewrite Hbeta in Hsum.
  simpl in Hsum.
  rewrite of_count_succ in *.
  pose proof (of_count_nonneg c) as Hc0.
  pose proof (of_count_nonneg t) as Ht0.
  assert (fast_log (predictive shared group beta value)
          = fast_log (beta * Shared.alpha shared + of_count c)
            - fast_log (Shared.alpha shared + of_count t)) as Hgain.
  { rewrite <- Hlog by lra. f_equal. unfold predictive. fold c t.
    field. lra. }
  rewrite Hgain.
  pose proof (Hgamma (Shared.alpha shared + of_count t) Hpos_total)
    as Hstep_total.
  replace (Shared.alpha shared + of_count t + 1)
    with (Shared.alpha shared + (of_count t + 1)) in Hstep_total by lra.
  rewrite Hstep_total.
  pose proof (Hgamma (beta * Shared.alpha shared + of_count c)
                ltac:(lra)) as Hstep_count.
  replace (beta * Shared.alpha shared + of_count c + 1)
    with (beta * Shared.alpha shared + (of_count c + 1))
    in Hstep_count by lra.
  rewrite Hstep_count in Hsum.
  destruct (counts !! value) as [c0|] eqn:Hc.
  - assert (c = c0) as <-.
    { unfold c, SparseCounter.get_count. fold counts. by rewrite Hc. }
    lra.
  - assert (c = 0%N) as Hz.
    { unfold c, SparseCounter.get_count. fold counts. by rewrite Hc. }
    rewrite Hz, of_count_0, Rplus_0_r in *.
    rewrite !Rplus_0_r in Hsum. lra.
Qed.
End chain_rule.

(** ** Sampler *)

Section sampling.
Context `{Collaborators}.
Local Open Scope R_scope.

(** One iteration of the count loop of [Sampler::init] on a buffer of
    [betas.size()] entries. *)
Lemma Sampler_init_step shared (i : Value * count_t) (probs : VectorFloat) :
  length probs = length (Shared.betas shared) →
  let body := x ← vec_get probs i.1; vec_set probs i.1 (x + of_count i.2) in
  ((i.1 < length (Shared.betas shared))%nat ∧
   ∃ probs', body = Ok probs' ∧
             length probs' = length (Shared.betas shared)) ∨
  ((length (Shared.betas shared) ≤ i.1)%nat ∧ body = Fail OutOfBounds).
Proof.
  intros Hlen body. unfold body.
  destruct (decide (i.1 < length (Shared.betas shared))%nat) as [Hk|Hk].
  - left. split; [done|].
    destruct (lookup_lt_is_Some_2 probs i.1) as [x Hx]; [lia|].
    rewrite (vec_get_Some _ _ _ Hx). bind_simpl.
    rewrite (vec_set_Some _ _ _ _ Hx). eexists. split; [done|].
    by rewrite length_insert.
  - right. split; [lia|]. by rewrite vec_get_ge by lia.
Qed.

(** X17.  [sample_value] on a group whose values are all below
    [betas.size()] builds a buffer of [dim + 1] concentrations, draws the
    probabilities from it with [sample_dirichlet], draws the index from
    those with [sample_discrete] run on the generator state the first draw
    left, and returns that index with the state the second draw left.  On
    a group that holds a value not below [betas.size()] the buffer is
    indexed outside its bounds while it is filled, before either draw: the
    Sampler, unlike the Scorer, asserts nothing. *)
Theorem sample_value_draws_twice (shared : Shared.t) (group : Group.t)
    (rng : rng_t) :
  (values_in_range shared group →
   ∃ buf probs rng1 i rng2,
     Sampler.concentrations shared group = Ok buf ∧
     length buf = (length (Shared.betas shared) + 1)%nat ∧
     sample_dirichlet rng buf = (probs, rng1) ∧
     sample_discrete rng1 probs = (i, rng2) ∧
     sample_value shared group rng = Ok (to_Value i, rng2)) ∧
  (∀ key,
     is_Some (SparseCounter.count (Group.counts group) !! key) →
     (length (Shared.betas shared) ≤ key)%nat →
     Sampler.concentrations shared group = Fail OutOfBounds ∧
     sample_value shared group rng = Fail OutOfBounds).
Proof.
  set (probs0 := (λ beta, beta * Shared.alpha shared)
                   <$> Shared.betas shared).
  assert (length probs0 = length (Shared.betas shared)) as Hlen0
    by (unfold probs0; by rewrite length_fmap).
  split.
  - intros Hkeys.
    assert (∃ probs1,
      for_each (SparseCounter.items (Group.counts group))
        (λ i probs, x ← vec_get probs i.1;
                    vec_set probs i.1 (x + of_count i.2)) probs0
      = Ok probs1 ∧ length probs1 = length (Shared.betas shared))
      as (probs1 & Hloop & Hlen1).
    { match goal with
      | |- ∃ _, for_each ?xs ?body ?st = _ ∧ _ =>
          destruct (for_each_outcome
                      (λ p, length p = length (Shared.betas shared))
                      OutOfBounds body xs st Hlen0)
            as [(p & Hp & Hl)|Hfail]
      end.
      - intros i p Hp.
        destruct (Sampler_init_step shared i p Hp) as [[_ Hok]|[_ Hno]];
          [left; exact Hok|right; exact Hno].
      - by exists p.
      - exfalso. revert Hfail.
        assert (∀ i, i ∈ SparseCounter.items (Group.counts group) →
                     (i.1 < length (Shared.betas shared))%nat) as Hin.
        { intros [k c] Hi. apply elem_of_map_to_list in Hi. simpl.
          apply Hkeys. by exists c. }
        revert Hlen0 Hin. generalize probs0.
        induction (SparseCounter.items (Group.counts group))
          as [|i items IH]; intros p Hp Hin; [done|].
        simpl.
        destruct (Sampler_init_step shared i p Hp)
          as [[_ (p' & Hok & Hp')]|[Hge _]].
        + cbv zeta in Hok. rewrite Hok. bind_simpl.
          apply IH; [done|]. intros j Hj. apply Hin. by right.
        + specialize (Hin i ltac:(left)). lia. }
    destruct (sample_dirichlet rng
                (probs1 ++ [Shared.beta0 shared * Shared.alpha shared]))
      as [probs rng1] eqn:Hdir.
    destruct (sample_discrete rng1 probs) as [i rng2] eqn:Hdis.
    exists (probs1 ++ [Shared.beta0 shared * Shared.alpha shared]),
           probs, rng1, i, rng2.
    assert (Sampler.concentrations shared group
            = Ok (probs1 ++ [Shared.beta0 shared * Shared.alpha shared]))
      as Hconc.
    { unfold Sampler.concentrations. fold probs0. by rewrite Hloop. }
    split; [done|].
    split; [rewrite length_app, Hlen1; done|].
    split; [done|]. split; [done|].
    unfold sample_value, Sampler.init. rewrite Hconc. bind_simpl.
    rewrite Hdir. bind_simpl. unfold Sampler.eval. simpl Sampler.probs.
    by rewrite Hdis.
  - intros key [c Hc] Hkey.
    assert (Sampler.concentrations shared group = Fail OutOfBounds)
      as Hconc.
    { unfold Sampler.concentrations. fold probs0.
      rewrite (for_each_fails_with
                 (λ p, length p = length (Shared.betas shared))
                 OutOfBounds _ _ _ (key, c)); [done| |done| | ].
      - by apply elem_of_map_to_list.
      - intros i p _ Hp.
        destruct (Sampler_init_step shared i p Hp) as [[_ Hok]|[_ Hno]];
          [left; exact Hok|right; exact Hno].
      - intros p Hp.
        destruct (Sampler_init_step shared (key, c) p Hp)
          as [[Hlt _]|[_ Hno]]; [simpl in Hlt; lia|exact Hno]. }
    split; [done|].
    unfold sample_value, Sampler.init. by rewrite Hconc.
Qed.
End sampling.

(** ** Runs of operations *)

Section runs.
Context `{Collaborators}.

Lemma vec_get_Ok {A} (v : list A) i x : vec_get v i = Ok x → v !! i = Some x.
Proof. unfold vec_get. destruct (v !! i); by intros [= <-]. Qed.

Lemma vec_set_Ok {A} (v v' : list A) i x :
  vec_set v i x = Ok v' → i < length v ∧ v' = <[i:=x]> v.
Proof.
  unfold vec_set. destruct (v !! i) eqn:Hi; intros [= <-].
  split; [by eapply lookup_lt_Some|done].
Qed.

(** A call of [add_value] that returns found every cell it touches. *)
Lemma add_value_Ok_inv shared groupid value m rng r :
  Mixture.add_value shared groupid value m rng = Ok r →
  ∃ group beta row,
    Mixture.groups m !! groupid = Some group ∧
    Shared.betas shared !! value = Some beta ∧
    Mixture.scores m !! value = Some row ∧
    groupid < length row ∧
    groupid < length (Mixture.scores_shift m).
Proof.
  unfold Mixture.add_value.
  destruct (DIST_ASSERT1 (groupid <? _)%nat) as [[]|]; [bind_simpl|done].
  destruct (DIST_ASSERT1 (value <? _)%nat) as [[]|]; [bind_simpl|done].
  destruct (vec_get (Mixture.groups m) groupid) as [group|] eqn:Hgroup;
    [bind_simpl|done].
  destruct (SparseCounter.add (Group.counts group) value) as [n c'].
  destruct (vec_set (Mixture.groups m) groupid _) as [gs|]; [bind_simpl|done].
  destruct (vec_get (Shared.betas shared) value) as [beta|] eqn:Hbeta;
    [bind_simpl|done].
  destruct (vec_get (Mixture.scores m) value) as [row|] eqn:Hrow;
    [bind_simpl|done].
  destruct (vec_set row groupid _) as [row'|] eqn:Hrow'; [bind_simpl|done].
  destruct (vec_set (Mixture.scores m) value row') as [sc|];
    [bind_simpl|done].
  destruct (vec_set (Mixture.scores_shift m) groupid _) as [sh|] eqn:Hsh;
    [bind_simpl|done].
  intros _. exists group, beta, row.
  apply vec_get_Ok in Hgroup, Hbeta, Hrow.
  apply vec_set_Ok in Hrow' as [? _]. apply vec_set_Ok in Hsh as [? _]. done.
Qed.

Lemma remove_value_Ok_inv shared groupid value m rng r :
  Mixture.remove_value shared groupid value m rng = Ok r →
  ∃ group beta row,
    Mixture.groups m !! groupid = Some group ∧
    is_Some (SparseCounter.count (Group.counts group) !! value) ∧
    Shared.betas shared !! value = Some beta ∧
    Mixture.scores m !! value = Some row ∧
    groupid < length row ∧
    groupid < length (Mixture.scores_shift m).
Proof.
  unfold Mixture.remove_value.
  destruct (DIST_ASSERT2 (groupid <? _)%nat) as [[]|]; [bind_simpl|done].
  destruct (DIST_ASSERT1 (value <? _)%nat) as [[]|]; [bind_simpl|done].
  destruct (vec_get (Mixture.groups m) groupid) as [group|] eqn:Hgroup;
    [bind_simpl|done].
  destruct (SparseCounter.remove (Group.counts group) value)
    as [[n c']|] eqn:Hrem; [bind_simpl|done].
  destruct (vec_set (Mixture.groups m) groupid _) as [gs|]; [bind_simpl|done].
  destruct (vec_get (Shared.betas shared) value) as [beta|] eqn:Hbeta;
    [bind_simpl|done].
  destruct (vec_get (Mixture.scores m) value) as [row|] eqn:Hrow;
    [bind_simpl|done].
  destruct (vec_set row groupid _) as [row'|] eqn:Hrow'; [bind_simpl|done].
  destruct (vec_set (Mixture.scores m) value row') as [sc|];
    [bind_simpl|done].
  destruct (vec_set (Mixture.scores_shift m) groupid _) as [sh|] eqn:Hsh;
    [bind_simpl|done].
  intros _. exists group, beta, row.
  apply vec_get_Ok in Hgroup, Hbeta, Hrow.
  apply vec_set_Ok in Hrow' as [? _]. apply vec_set_Ok in Hsh as [? _].
  split; [done|]. split; [|done].
  unfold SparseCounter.remove in Hrem.
  by destruct (SparseCounter.count (Group.counts group) !! value).
Qed.

Lemma cache_shape_remove_group shared groupid m :
  cache_shape shared m →
  groupid < length (Mixture.groups m) →
  ∃ m', Mixture.remove_group shared groupid m = Ok ((), m') ∧
        cache_shape shared m'.
Proof.
  intros Hshape Hg. pose proof Hshape as (Hrows & Hcols & Hshift).
  destruct (decide (groupid = length (Mixture.groups m) - 1)) as [->|Hne].
  - eexists. split; [apply remove_group_last_ok; [done|lia]|].
    unfold cache_shape. simpl.
    rewrite length_map_range, !length_resize.
    split; [done|]. split; [|done].
    intros v row. rewrite lookup_map_range.
    destruct (Mixture.scores m !! v) as [row0|] eqn:Hrow0; [simpl|done].
    apply lookup_lt_Some in Hrow0.
    rewrite decide_True by lia. intros [= <-]. apply length_resize.
  - destruct (lookup_lt_is_Some_2 (Mixture.groups m) groupid) as [a Ha];
      [lia|].
    destruct (lookup_lt_is_Some_2 (Mixture.groups m)
                (length (Mixture.groups m) - 1)) as [b Hb]; [lia|].
    exists (swap_removed shared groupid m a b).
    split; [apply remove_group_ok; (done || lia)|].
    apply cache_shape_swap_removed; [done|lia].
Qed.

(** Each operation that returns keeps the shape of the cache and the
    generator state. *)
Lemma mutate_shape shared op m rng m' rng' :
  cache_shape shared m →
  mutate shared op m rng = Ok (m', rng') →
  cache_shape shared m' ∧ rng' = rng.
Proof.
  intros Hshape. destruct op as [| |groupid|groupid value|groupid value];
    simpl.
  - destruct (init_consistent shared m rng) as (m1 & -> & _ & [Hs _]).
    bind_simpl. by intros [= <- <-].
  - rewrite add_group_ok by done. bind_simpl. intros [= <- <-].
    split; [|done]. destruct Hshape as (Hrows & Hcols & Hshift).
    unfold cache_shape. simpl.
    rewrite length_fmap, !length_app. simpl.
    split; [done|]. split; [|lia].
    intros v row'. rewrite list_lookup_fmap.
    destruct (Mixture.scores m !! v) as [row|] eqn:Hrow; [simpl|done].
    intros [= <-]. rewrite length_app, (Hcols _ _ Hrow). done.
  - destruct (decide (groupid < length (Mixture.groups m))) as [Hg|Hg].
    + destruct (cache_shape_remove_group shared groupid m Hshape Hg)
        as (m1 & -> & Hs).
      bind_simpl. by intros [= <- <-].
    + destruct (remove_group_rejects shared groupid m) as [e ->]; [lia|].
      done.
  - destruct (Mixture.add_value shared groupid value m rng)
      as [[[[] m1] rng1]|e] eqn:Hadd; [bind_simpl|done].
    intros [= <- <-].
    destruct (add_value_Ok_inv _ _ _ _ _ _ Hadd)
      as (group & beta & row & Hgroup & Hbeta & Hrow & Hlen & Hshift).
    destruct (SparseCounter.add (Group.counts group) value) as [n c'] eqn:Hc.
    rewrite (add_value_ok shared groupid value m rng group beta row n c')
      in Hadd by done.
    injection Hadd as <- <-. split; [|done]. by apply cache_shape_update.
  - destruct (Mixture.remove_value shared groupid value m rng)
      as [[[[] m1] rng1]|e] eqn:Hrem; [bind_simpl|done].
    intros [= <- <-].
    destruct (remove_value_Ok_inv _ _ _ _ _ _ Hrem)
      as (group & beta & row & Hgroup & [old Hold] & Hbeta & Hrow & Hlen
          & Hshift).
    destruct (SparseCounter.remove (Group.counts group) value)
      as [[n c']|e] eqn:Hc.
    2:{ unfold SparseCounter.remove in Hc. by rewrite Hold in Hc. }
    rewrite (remove_value_ok shared groupid value m rng group beta row n c')
      in Hrem by done.
    injection Hrem as <- <-. split; [|done]. by apply cache_shape_update.
Qed.

(** Each operation other than [add_group] that returns keeps the cache
    consistent. *)
Lemma mutate_consistent shared op m rng m' rng' :
  cache_consistent shared m →
  op ≠ AddGroup →
  mutate shared op m rng = Ok (m', rng') →
  cache_consistent shared m'.
Proof.
  intros Hcons Hop. pose proof Hcons as [Hshape _].
  pose proof Hshape as (Hrows & _ & _).
  destruct op as [| |groupid|groupid value|groupid value]; simpl; [|done|..].
  - destruct (init_consistent shared m rng) as (m1 & -> & _ & Hc).
    bind_simpl. by intros [= <- <-].
  - destruct (decide (groupid < length (Mixture.groups m))) as [Hg|Hg].
    + destruct (remove_group_consistent shared groupid m Hcons Hg)
        as (m1 & -> & _ & Hc).
      bind_simpl. by intros [= <- <-].
    + destruct (remove_group_rejects shared groupid m) as [e ->]; [lia|].
      done.
  - destruct (Mixture.add_value shared groupid value m rng)
      as [[[[] m1] rng1]|e] eqn:Hadd; [bind_simpl|done].
    intros [= <- <-].
    destruct (add_value_Ok_inv _ _ _ _ _ _ Hadd)
      as (group & beta & row & Hgroup & Hbeta & Hrow & Hlen & Hshift).
    apply lookup_lt_Some in Hgroup, Hrow.
    destruct (add_value_consistent shared groupid value m rng Hcons)
      as (m2 & Hadd' & Hc); [done|lia|].
    rewrite Hadd in Hadd'. by injection Hadd' as <-.
  - destruct (Mixture.remove_value shared groupid value m rng)
      as [[[[] m1] rng1]|e] eqn:Hrem; [bind_simpl|done].
    intros [= <- <-].
    destruct (remove_value_Ok_inv _ _ _ _ _ _ Hrem)
      as (group & beta & row & Hgroup & Hheld & Hbeta & Hrow & Hlen
          & Hshift).
    apply lookup_lt_Some in Hrow.
    destruct (remove_value_consistent shared groupid value m rng group
                Hcons Hgroup) as (m2 & Hrem' & Hc); [lia|done|].
    rewrite Hrem in Hrem'. by injection Hrem' as <-.
Qed.

(** X18.  No operation of the Mixture draws from the generator or breaks
    the shape of the cache: after any run of [init], [add_group],
    [remove_group], [add_value] and [remove_value] that returns, started
    on a well-shaped Mixture, the cache has [dim] rows and one column and
    one shift entry per group, and the generator state is the one the run
    started with. *)
Theorem runs_keep_shape (shared : Shared.t) (ops : list mutation)
    (m m' : Mixture.t) (rng rng' : rng_t) :
  cache_shape shared m →
  mutate_all shared ops m rng = Ok (m', rng') →
  cache_shape shared m' ∧ rng' = rng.
Proof.
  revert m rng. induction ops as [|op ops IH]; intros m rng Hshape; simpl.
  - by intros [= <- <-].
  - destruct (mutate shared op m rng) as [[m1 rng1]|e] eqn:Hop;
      [bind_simpl|done].
    destruct (mutate_shape shared op m rng m1 rng1 Hshape Hop) as [Hs ->].
    by apply IH.
Qed.

(** X19.  Cache equivalence is an invariant of the runs without
    [add_group]: started on a consistent Mixture, after any run of [init],
    [remove_group], [add_value] and [remove_value] that returns, every
    cache cell and shift entry holds the closed form of its group. *)
Theorem runs_keep_cache_equivalence (shared : Shared.t)
    (ops : list mutation) (m m' : Mixture.t) (rng rng' : rng_t) :
  cache_consistent shared m →
  AddGroup ∉ ops →
  mutate_all shared ops m rng = Ok (m', rng') →
  cache_consistent shared m'.
Proof.
  revert m rng. induction ops as [|op ops IH]; intros m rng Hcons Hops;
    simpl.
  - by intros [= <- <-].
  - apply not_elem_of_cons in Hops as [Hop Hops].
    destruct (mutate shared op m rng) as [[m1 rng1]|e] eqn:Hm;
      [bind_simpl|done].
    apply IH; [|done].
    by apply (mutate_consistent shared op m rng m1 rng1).
Qed.
End runs.

(** ** The Scorer's probabilities *)

Section normalisation.
Context `{Collaborators}.
Local Open Scope R_scope.

Lemma Rsum_linear (a b : float) (g : nat → float) (l : list float) start :
  Rsum (imap (λ i x, a * x + b * g (start + i)%nat) l)
  = a * Rsum l + b * Rsum (g <$> seq start (length l)).
Proof.
  revert start. induction l as [|x l IH]; intros start; simpl.
  - lra.
  - rewrite Nat.add_0_r.
    rewrite (imap_ext _ (λ i x, a * x + b * g (S start + i)%nat)).
    + fold (Rsum (imap (λ i x, a * x + b * g (S start + i)%nat) l)).
      rewrite IH. fold (Rsum l).
      change (foldr Rplus 0 (g <$> seq (S start) (length l)))
        with (Rsum (g <$> seq (S start) (length l))).
      change (list_fmap nat R g (seq (S start) (length l)))
        with (g <$> seq (S start) (length l)).
      lra.
    + intros i y _. simpl. do 3 f_equal. lia.
Qed.

(** X20.  The scores that [Scorer::init] leaves, one per value below
    [betas.size()], add up to
    [(alpha * sum of betas + total) / (alpha + total)] when the group is in
    range and its total is the sum of its counts: to 1 when the betas add
    up to 1, and to less by the share [alpha * beta0] of the other bucket
    when they add up to [1 - beta0]. *)
Theorem Scorer_scores_add_up (shared : Shared.t) (group : Group.t)
    (s : Scorer.t) (rng : rng_t) :
  values_in_range shared group →
  of_count (SparseCounter.get_total (Group.counts group)) =
    Rsum ((λ v, of_count (SparseCounter.get_count (Group.counts group) v))
            <$> seq 0 (length (Shared.betas shared))) →
  Shared.alpha shared
    + of_count (SparseCounter.get_total (Group.counts group)) ≠ 0 →
  ∃ s',
    Scorer.init shared group s rng = Ok ((), s', rng) ∧
    Rsum (Scorer.scores s') =
      (Shared.alpha shared * Rsum (Shared.betas shared)
       + of_count (SparseCounter.get_total (Group.counts group)))
      / (Shared.alpha shared
         + of_count (SparseCounter.get_total (Group.counts group))) ∧
    (Rsum (Shared.betas shared) = 1 → Rsum (Scorer.scores s') = 1) ∧
    (Rsum (Shared.betas shared) = 1 - Shared.beta0 shared →
     Rsum (Scorer.scores s') =
       1 - Shared.alpha shared * Shared.beta0 shared
           / (Shared.alpha shared
              + of_count (SparseCounter.get_total (Group.counts group)))).
Proof.
  intros Hkeys Htotal Hnz.
  destruct (Scorer_init_ok shared group s rng Hkeys)
    as (sc & Hinit & Hlen & Hsc).
  cbv zeta in Hsc.
  set (t := of_count (SparseCounter.get_total (Group.counts group))) in *.
  set (a := Shared.alpha shared / (Shared.alpha shared + t)) in *.
  set (b := 1 / (Shared.alpha shared + t)) in *.
  set (g := λ v, of_count (SparseCounter.get_count (Group.counts group) v))
    in *.
  assert (sc = imap (λ i x, a * x + b * g (0 + i)%nat) (Shared.betas shared))
    as Hsc_eq.
  { apply list_eq. intros v. rewrite list_lookup_imap.
    destruct (Shared.betas shared !! v) as [beta|] eqn:Hbeta; simpl.
    - rewrite (Hsc v beta Hbeta). f_equal.
      unfold g, SparseCounter.get_count.
      destruct (SparseCounter.count (Group.counts group) !! v);
        simpl; [done|].
      rewrite of_count_0. lra.
    - apply lookup_ge_None_2. rewrite Hlen. by apply lookup_ge_None_1. }
  assert (Rsum sc =
          (Shared.alpha shared * Rsum (Shared.betas shared) + t)
          / (Shared.alpha shared + t)) as Hsum.
  { rewrite Hsc_eq, Rsum_linear, <- Htotal. unfold a, b. by field. }
  exists (Scorer.mk sc). split; [done|]. simpl Scorer.scores.
  split; [done|]. split.
  - intros Hone. rewrite Hsum, Hone. by field.
  - intros Hone. rewrite Hsum, Hone. by field.
Qed.
End normalisation.

(** * The properties at concrete inputs *)

#[local] Existing Instance exact_collaborators.

Lemma ln_quotient (x y : R) :
  (0 < x)%R → (0 < y)%R → (ln (x / y) = ln x - ln y)%R.
Proof.
  intros Hx Hy. unfold Rdiv.
  rewrite ln_mult by (done || by apply Rinv_0_lt_compat).
  rewrite ln_Rinv by done. lra.
Qed.

Lemma ln_positive (x : R) : (1 < x)%R → (0 < ln x)%R.
Proof. intros Hx. rewrite <- ln_1. apply ln_increasing; lra. Qed.

Lemma mixture_ex_init :
  Mixture.init shared_ex (Mixture.mk [group_ex; empty_group] [] []) rng0
    = Ok ((), mixture_ex, rng0).
Proof. reflexivity. Qed.

Lemma mixture_ex_consistent : cache_consistent shared_ex mixture_ex.
Proof.
  destruct (init_consistent shared_ex
              (Mixture.mk [group_ex; empty_group] [] []) rng0)
    as (m' & Hinit & _ & Hcons).
  rewrite mixture_ex_init in Hinit. by injection Hinit as <-.
Qed.

Lemma dim_shared_ex : to_Value (length (Shared.betas shared_ex)) = 2.
Proof. reflexivity. Qed.

Lemma group_ex_keys key :
  is_Some (SparseCounter.count (Group.counts group_ex) !! key) →
  key < length (Shared.betas shared_ex).
Proof.
  intros [c Hc]. simpl in *.
  apply lookup_singleton_Some in Hc as [<- _]. lia.
Qed.

Lemma group_ex_in_range : counter_in_range (Group.counts group_ex).
Proof.
  split; [|done]. intros key. unfold SparseCounter.get_count. simpl.
  destruct (decide (key = 0)) as [->|Hne].
  - by rewrite lookup_singleton_eq.
  - by rewrite lookup_singleton_ne.
Qed.

(** C1 at its failing input.  [init] on a Mixture without groups, then
    [add_group]: the new group is empty, so cache equivalence asks for
    [scores[v][0] = log (alpha * betas[v])] = log 2 and
    [scores_shift[0] = log alpha] = log 4, but both entries are 0.  A
    following [add_value(0, 0)] rewrites cell (0, 0) and the shift entry
    only: cell (1, 0) is still 0 where log 2 is due.  Had the same group
    array been handed to [init], the cache would be consistent. *)
Theorem add_group_leaves_cache_unscored :
  Mixture.init shared_ex mixture_fresh rng0 = Ok ((), mixture_init, rng0) ∧
  cache_consistent shared_ex mixture_init ∧
  Mixture.add_group shared_ex mixture_init rng0
    = Ok ((), mixture_added, rng0) ∧
  Mixture.groups mixture_added = [empty_group] ∧
  score_cell mixture_added 0 0 = Some 0%R ∧
  score_of shared_ex (1 / 2) empty_group 0 = ln 2 ∧
  Mixture.scores_shift mixture_added !! 0 = Some 0%R ∧
  shift_of shared_ex empty_group = ln 4 ∧
  ln 2 ≠ 0%R ∧ ln 4 ≠ 0%R ∧
  ¬ cache_consistent shared_ex mixture_added ∧
  (∃ m2, Mixture.add_value shared_ex 0 0 mixture_added rng0
           = Ok ((), m2, rng0) ∧
         score_cell m2 1 0 = Some 0%R ∧
         ¬ cache_consistent shared_ex m2) ∧
  (∃ m3, Mixture.init shared_ex mixture_added rng0 = Ok ((), m3, rng0) ∧
         Mixture.groups m3 = Mixture.groups mixture_added ∧
         cache_consistent shared_ex m3).
Proof.
  assert (ln 2 ≠ 0%R) as Hln2.
  { pose proof (ln_positive 2 ltac:(lra)). lra. }
  assert (ln 4 ≠ 0%R) as Hln4.
  { pose proof (ln_positive 4 ltac:(lra)). lra. }
  assert (score_of shared_ex (1 / 2) empty_group 0 = ln 2) as Hscore.
  { change (ln (4 * (1 / 2) + of_count 0) = ln 2).
    rewrite of_count_0. f_equal. lra. }
  assert (score_of shared_ex (1 / 2) group_ex 1 = ln 2) as Hscore1.
  { change (ln (4 * (1 / 2) + of_count 0) = ln 2).
    rewrite of_count_0. f_equal. lra. }
  assert (shift_of shared_ex empty_group = ln 4) as Hshift.
  { change (ln (4 + of_count 0) = ln 4). rewrite of_count_0. f_equal. lra. }
  split; [reflexivity|].
  split.
  { destruct (init_consistent shared_ex mixture_fresh rng0)
      as (m' & Hinit & _ & Hcons).
    change (Ok ((), mixture_init, rng0) = Ok ((), m', rng0)) in Hinit.
    by injection Hinit as <-. }
  split; [reflexivity|]. split; [reflexivity|]. split; [reflexivity|].
  split; [done|]. split; [reflexivity|]. split; [done|].
  split; [done|]. split; [done|].
  split; [|split].
  - intros [_ Hvals]. destruct (Hvals 0) as [Hs _]; [simpl; lia|].
    specialize (Hs empty_group eq_refl). rewrite Hshift in Hs.
    injection Hs as Hs. by apply Hln4.
  - eexists. split; [reflexivity|]. split; [reflexivity|].
    intros [_ Hvals]. destruct (Hvals 0) as [_ Hc]; [simpl; lia|].
    specialize (Hc 1 ltac:(rewrite dim_shared_ex; lia) group_ex (1 / 2)%R
                  eq_refl eq_refl).
    rewrite Hscore1 in Hc. injection Hc as Hc. by apply Hln2.
  - apply init_consistent.
Qed.

Lemma ln_lt_ne (x y : R) : (0 < x)%R → (x < y)%R → ln y ≠ ln x.
Proof. intros Hx Hxy. pose proof (ln_increasing x y Hx Hxy). lra. Qed.

(** C3 is false as stated.  [add_value] and [remove_value] recompute the
    cache cell and the shift entry from the group; they do not put back
    what was stored.  On [mixture_stale], whose cache holds log 2 and log 4
    for a group that has one value, the round trip succeeds and leaves
    log 3 and log 5.  On [mixture_added], the state after [init] and
    [add_group], it leaves log 2 and log 4 where both entries were 0. *)
Lemma round_trip_recomputes_cache :
  (∃ m1 m2,
     Mixture.add_value shared_ex 0 0 mixture_stale rng0
       = Ok ((), m1, rng0) ∧
     Mixture.remove_value shared_ex 0 0 m1 rng0 = Ok ((), m2, rng0) ∧
     score_cell m2 0 0 ≠ score_cell mixture_stale 0 0 ∧
     Mixture.scores_shift m2 !! 0 ≠ Mixture.scores_shift mixture_stale !! 0) ∧
  (∃ m1 m2,
     Mixture.add_value shared_ex 0 0 mixture_added rng0
       = Ok ((), m1, rng0) ∧
     Mixture.remove_value shared_ex 0 0 m1 rng0 = Ok ((), m2, rng0) ∧
     score_cell m2 0 0 ≠ score_cell mixture_added 0 0 ∧
     Mixture.scores_shift m2 !! 0 ≠ Mixture.scores_shift mixture_added !! 0).
Proof.
  assert (of_count 1 = 1%R) as Hone by done.
  split.
  - eexists _, _. split; [reflexivity|]. split; [reflexivity|].
    split.
    + change (Some (ln (4 * (1 / 2) + of_count 1))
              ≠ Some (ln (4 * (1 / 2) + of_count 0))).
      rewrite of_count_0, Hone. intros [= Heq]. revert Heq.
      apply ln_lt_ne; lra.
    + change (Some (ln (4 + of_count 1)) ≠ Some (ln (4 + of_count 0))).
      rewrite of_count_0, Hone. intros [= Heq]. revert Heq.
      apply ln_lt_ne; lra.
  - eexists _, _. split; [reflexivity|]. split; [reflexivity|].
    split.
    + change (Some (ln (4 * (1 / 2) + of_count 0)) ≠ Some 0%R).
      rewrite of_count_0. replace (4 * (1 / 2) + 0)%R with 2%R by lra.
      pose proof (ln_positive 2 ltac:(lra)). intros [= Heq]. lra.
    + change (Some (ln (4 + of_count 0)) ≠ Some 0%R).
      rewrite of_count_0. replace (4 + 0)%R with 4%R by lra.
      pose proof (ln_positive 4 ltac:(lra)). intros [= Heq]. lra.
Qed.

(** C7 is false as stated.  [Group::add_value] returns the same (empty)
    value on an empty group and on a group that holds the value once,
    while the new counts are 1 and 2: what it returns is not the new
    count.  And on a group whose count of the value is UINT32_MAX the new
    count and the new total are 0, not one more. *)
Lemma Group_add_value_returns_no_count :
  (∃ r g1 g2,
     Group.add_value shared_ex 0 empty_group rng0 = Ok (r, g1, rng0) ∧
     Group.add_value shared_ex 0 group_ex rng0 = Ok (r, g2, rng0) ∧
     SparseCounter.get_count (Group.counts g1) 0 = 1%N ∧
     SparseCounter.get_count (Group.counts g2) 0 = 2%N) ∧
  (∃ g3,
     Group.add_value shared_ex 0 group_full rng0 = Ok ((), g3, rng0) ∧
     SparseCounter.get_count (Group.counts group_full) 0 = 4294967295%N ∧
     SparseCounter.get_count (Group.counts g3) 0 = 0%N ∧
     SparseCounter.get_total (Group.counts g3) = 0%N).
Proof.
  split.
  - eexists _, _, _. repeat split; reflexivity.
  - eexists. repeat split; reflexivity.
Qed.

(** C8 as stated fails at alpha = 0, where log-gamma has its pole: both
    values of the closing term are +infinity and their difference is NaN,
    not 0. *)
Lemma score_group_empty_nan_at_pole :
  ∃ g0, Ieee.Group_init shared32_pole group_ex rng0 = Ok ((), g0, rng0) ∧
        Ieee.score_group lgamma32 shared32_pole g0 rng0
          = Ok (Ieee.NaN, rng0) ∧
        Ieee.score_group lgamma32 shared32_pole g0 rng0
          ≠ Ok (Ieee.Finite 0, rng0).
Proof.
  exists empty_group. split; [reflexivity|].
  assert (Ieee.score_group lgamma32 shared32_pole empty_group rng0
            = Ok (Ieee.NaN, rng0)) as Hnan.
  { unfold Ieee.score_group, SparseCounter.items, empty_group.
    simpl Group.counts. unfold SparseCounter.clear at 1.
    simpl SparseCounter.count. rewrite map_to_list_empty. simpl for_each.
    cbv beta iota delta [mbind result_bind mret result_ret].
    change (SparseCounter.get_total SparseCounter.clear) with 0%N.
    rewrite Ieee_add_zero. simpl Ieee.Shared.alpha. unfold lgamma32.
    by destruct (Req_EM_T 0 0). }
  split; [exact Hnan|]. rewrite Hnan. discriminate.
Qed.

(** ** Instances of the theorems *)

Lemma mixture_ex_shape : cache_shape shared_ex mixture_ex.
Proof. apply mixture_ex_consistent. Qed.

Lemma value_0_in_dim : 0 < to_Value (length (Shared.betas shared_ex)).
Proof. rewrite dim_shared_ex. lia. Qed.

Lemma mixture_ex_cell_0_0 : cell_consistent shared_ex mixture_ex 0 0.
Proof.
  destruct mixture_ex_consistent as [_ Hvals].
  destruct (Hvals 0) as [_ Hcells]; [simpl; lia|].
  apply Hcells, value_0_in_dim.
Qed.

Lemma mixture_ex_shift_0 : shift_consistent shared_ex mixture_ex 0.
Proof.
  destruct mixture_ex_consistent as [_ Hvals].
  destruct (Hvals 0) as [Hshift _]; [simpl; lia|]. done.
Qed.

(** C2 on [mixture_ex]: value 0 scored against group 0. *)
Lemma batched_equals_per_group_witness :
  ∃ accum' s' x,
    Mixture.score_value shared_ex 0 (replicate 2 0%R) mixture_ex rng0
      = Ok ((), accum', rng0) ∧
    Scorer.init shared_ex group_ex (Scorer.mk []) rng0 = Ok ((), s', rng0) ∧
    Scorer.eval shared_ex 0 s' rng0 = Ok (x, rng0) ∧
    accum' !! 0 = Some x.
Proof.
  apply (batched_equals_per_group shared_ex mixture_ex 0 0 group_ex
           (1 / 2)%R (Scorer.mk []) rng0).
  - exact ln_quotient.
  - exact mixture_ex_consistent.
  - exact value_0_in_dim.
  - reflexivity.
  - reflexivity.
  - exact group_ex_keys.
  - change (0 < 4 + of_count 1)%R. unfold of_count. simpl. lra.
  - change (0 < 4 * (1 / 2) + of_count 1)%R. unfold of_count. simpl. lra.
Defined.

(** C3, amended, on [mixture_ex]: value 0 added to and removed from
    group 0. *)
Lemma add_remove_value_round_trip_witness :
  ∃ m1 m2 group2,
    Mixture.add_value shared_ex 0 0 mixture_ex rng0 = Ok ((), m1, rng0) ∧
    Mixture.remove_value shared_ex 0 0 m1 rng0 = Ok ((), m2, rng0) ∧
    Mixture.groups m2 !! 0 = Some group2 ∧
    (∀ k, SparseCounter.get_count (Group.counts group2) k =
          SparseCounter.get_count (Group.counts group_ex) k) ∧
    SparseCounter.get_total (Group.counts group2) =
      SparseCounter.get_total (Group.counts group_ex) ∧
    (∀ g', g' ≠ 0 →
           Mixture.groups m2 !! g' = Mixture.groups mixture_ex !! g') ∧
    Mixture.scores m2 = Mixture.scores mixture_ex ∧
    Mixture.scores_shift m2 = Mixture.scores_shift mixture_ex.
Proof.
  apply (add_remove_value_round_trip shared_ex 0 0 mixture_ex group_ex rng0).
  - exact mixture_ex_shape.
  - reflexivity.
  - exact value_0_in_dim.
  - exact group_ex_in_range.
  - exact mixture_ex_cell_0_0.
  - exact mixture_ex_shift_0.
Defined.

(** C4 on [mixture_ex]: group 0 of two is removed. *)
Lemma remove_group_swaps_last_witness :
  ∃ m',
    Mixture.remove_group shared_ex 0 mixture_ex = Ok ((), m') ∧
    length (Mixture.groups m') = 1 ∧
    cache_shape shared_ex m' ∧
    Mixture.groups m' !! 0 = Mixture.groups mixture_ex !! 1 ∧
    Mixture.scores_shift m' !! 0 = Mixture.scores_shift mixture_ex !! 1 ∧
    (∀ value, value < to_Value (length (Shared.betas shared_ex)) →
       score_cell m' value 0 = score_cell mixture_ex value 1) ∧
    (∀ g, g < 1 → g ≠ 0 →
       Mixture.groups m' !! g = Mixture.groups mixture_ex !! g ∧
       Mixture.scores_shift m' !! g = Mixture.scores_shift mixture_ex !! g ∧
       ∀ value, value < to_Value (length (Shared.betas shared_ex)) →
         score_cell m' value g = score_cell mixture_ex value g).
Proof.
  apply (remove_group_swaps_last shared_ex 0 mixture_ex).
  - exact mixture_ex_shape.
  - simpl. lia.
Defined.

(** C5 on [mixture_ex]: value 0 and group 0. *)
Lemma add_remove_value_frame_witness :
  (∃ m', Mixture.add_value shared_ex 0 0 mixture_ex rng0
           = Ok ((), m', rng0) ∧
         frame_of 0 0 mixture_ex m' ∧ cache_shape shared_ex m') ∧
  (∀ group,
     Mixture.groups mixture_ex !! 0 = Some group →
     is_Some (SparseCounter.count (Group.counts group) !! 0) →
     ∃ m', Mixture.remove_value shared_ex 0 0 mixture_ex rng0
             = Ok ((), m', rng0) ∧
           frame_of 0 0 mixture_ex m' ∧ cache_shape shared_ex m').
Proof.
  apply (add_remove_value_frame shared_ex 0 0 mixture_ex rng0).
  - exact mixture_ex_shape.
  - simpl. lia.
  - exact value_0_in_dim.
Defined.

(** C6 on [mixture_ex]: value 0 scored into the buffer [1; 2]. *)
Lemma score_value_accumulates_witness :
  ∃ accum',
    Mixture.score_value shared_ex 0 [1%R; 2%R] mixture_ex rng0
      = Ok ((), accum', rng0) ∧
    length accum' = 2 ∧
    ∀ g, g < 2 →
      ∃ old score shift,
        [1%R; 2%R] !! g = Some old ∧
        score_cell mixture_ex 0 g = Some score ∧
        Mixture.scores_shift mixture_ex !! g = Some shift ∧
        accum' !! g = Some (old + (score - shift))%R.
Proof.
  apply (score_value_accumulates shared_ex 0 [1%R; 2%R] mixture_ex rng0).
  - exact mixture_ex_shape.
  - exact value_0_in_dim.
  - reflexivity.
Defined.

(** C7, amended, on [group_ex]. *)
Lemma Group_add_value_increments_witness :
  ∃ g', Group.add_value shared_ex 0 group_ex rng0 = Ok ((), g', rng0) ∧
    SparseCounter.get_count (Group.counts g') 0 = wrap32 (1 + 1) ∧
    SparseCounter.get_total (Group.counts g') = wrap32 (1 + 1) ∧
    ((1 < 2 ^ 32 - 1)%N →
     SparseCounter.get_count (Group.counts g') 0 = (1 + 1)%N) ∧
    ((1 < 2 ^ 32 - 1)%N →
     SparseCounter.get_total (Group.counts g') = (1 + 1)%N) ∧
    (∀ k, k ≠ 0 →
       SparseCounter.get_count (Group.counts g') k =
         SparseCounter.get_count (Group.counts group_ex) k).
Proof.
  exact (Group_add_value_increments shared_ex 0 group_ex rng0).
Defined.

(** C9 on [group_ex]. *)
Lemma Sampler_init_concentrations_witness :
  ∃ buf : VectorFloat,
    length buf = 3 ∧
    (∀ v beta, Shared.betas shared_ex !! v = Some beta →
       buf !! v =
         Some (4 * beta
               + of_count (SparseCounter.get_count (Group.counts group_ex) v))%R) ∧
    buf !! 2 = Some (4 * 0)%R ∧
    Sampler.init shared_ex group_ex (Sampler.mk []) rng0 =
      Ok ((), Sampler.mk (sample_dirichlet rng0 buf).1,
          (sample_dirichlet rng0 buf).2).
Proof.
  apply (Sampler_init_concentrations shared_ex group_ex (Sampler.mk []) rng0).
  exact group_ex_keys.
Defined.

(** * The further properties at concrete inputs *)

Lemma lgamma_rec_succ (x : R) :
  (0 < x)%R → (lgamma_rec (x + 1) = lgamma_rec x + ln x)%R.
Proof.
  intros Hx. unfold lgamma_rec.
  destruct (archimed x) as [Hup1 Hup2].
  assert (up (x + 1) = (up x + 1)%Z) as ->.
  { symmetry. apply tech_up; rewrite plus_IZR; lra. }
  assert (0 < up x)%Z as Hpos by (apply lt_IZR; lra).
  replace (Z.to_nat (up x + 1) - 1) with (S (Z.to_nat (up x) - 1)) by lia.
  simpl. replace (x + 1 - 1)%R with x by lra. lra.
Qed.

Lemma mixture_added_shape : cache_shape shared_ex mixture_added.
Proof.
  split; [reflexivity|]. split; [|reflexivity].
  intros [|[|v]] row Hrow; simpl in Hrow; by inversion Hrow.
Qed.

Lemma group_ex_holds_0 :
  is_Some (SparseCounter.count (Group.counts group_ex) !! 0).
Proof. by exists 1%N. Qed.

Lemma group_bad_holds_5 :
  is_Some (SparseCounter.count (Group.counts group_bad) !! 5).
Proof. by exists 1%N. Qed.

(** X2 on [mixture_ex]. *)
Lemma add_value_matches_rebuild_witness :
  ∃ m' group group',
    Mixture.add_value shared_ex 0 0 mixture_ex rng0 = Ok ((), m', rng0) ∧
    Mixture.groups mixture_ex !! 0 = Some group ∧
    Group.add_value shared_ex 0 group rng0 = Ok ((), group', rng0) ∧
    Mixture.groups m' = <[0:=group']> (Mixture.groups mixture_ex) ∧
    cache_consistent shared_ex m' ∧
    ∀ m0 rng', Mixture.groups m0 = Mixture.groups m' →
               Mixture.init shared_ex m0 rng' = Ok ((), m', rng').
Proof.
  apply (add_value_matches_rebuild shared_ex 0 0 mixture_ex rng0).
  - exact mixture_ex_consistent.
  - simpl. lia.
  - exact value_0_in_dim.
Defined.

(** X3 on [mixture_ex]. *)
Lemma remove_value_matches_rebuild_witness :
  ∃ m' group',
    Mixture.remove_value shared_ex 0 0 mixture_ex rng0 = Ok ((), m', rng0) ∧
    Group.remove_value shared_ex 0 group_ex rng0 = Ok ((), group', rng0) ∧
    Mixture.groups m' = <[0:=group']> (Mixture.groups mixture_ex) ∧
    cache_consistent shared_ex m' ∧
    ∀ m0 rng', Mixture.groups m0 = Mixture.groups m' →
               Mixture.init shared_ex m0 rng' = Ok ((), m', rng').
Proof.
  apply (remove_value_matches_rebuild shared_ex 0 0 mixture_ex group_ex rng0).
  - exact mixture_ex_consistent.
  - reflexivity.
  - exact value_0_in_dim.
  - exact group_ex_holds_0.
Defined.

(** X4 on [mixture_ex]: the last group is removed. *)
Lemma remove_group_matches_rebuild_witness :
  ∃ m', Mixture.remove_group shared_ex 1 mixture_ex = Ok ((), m') ∧
        length (Mixture.groups m') = 1 ∧
        cache_consistent shared_ex m' ∧
        ∀ m0 rng, Mixture.groups m0 = Mixture.groups m' →
                  Mixture.init shared_ex m0 rng = Ok ((), m', rng).
Proof.
  apply (remove_group_matches_rebuild shared_ex 1 mixture_ex).
  - exact mixture_ex_consistent.
  - simpl. lia.
Defined.

(** X5 on [mixture_ex]. *)
Lemma add_group_appends_zero_column_witness :
  ∃ m',
    Mixture.add_group shared_ex mixture_ex rng0 = Ok ((), m', rng0) ∧
    Mixture.groups m' = [group_ex; empty_group; empty_group] ∧
    Mixture.scores_shift m' = Mixture.scores_shift mixture_ex ++ [0%R] ∧
    Mixture.scores m' = (λ row, row ++ [0%R]) <$> Mixture.scores mixture_ex ∧
    cache_shape shared_ex m' ∧
    ∀ g, g < 2 →
      Mixture.groups m' !! g = Mixture.groups mixture_ex !! g ∧
      Mixture.scores_shift m' !! g = Mixture.scores_shift mixture_ex !! g ∧
      ∀ value, score_cell m' value g = score_cell mixture_ex value g.
Proof.
  apply (add_group_appends_zero_column shared_ex mixture_ex rng0).
  exact mixture_ex_shape.
Defined.

(** X6 on [mixture_ex]. *)
Lemma remove_last_group_truncates_witness :
  ∃ m',
    Mixture.remove_group shared_ex 1 mixture_ex = Ok ((), m') ∧
    Mixture.groups m' = [group_ex] ∧
    Mixture.scores_shift m' = take 1 (Mixture.scores_shift mixture_ex) ∧
    Mixture.scores m' = take 1 <$> Mixture.scores mixture_ex ∧
    cache_shape shared_ex m'.
Proof.
  apply (remove_last_group_truncates shared_ex mixture_ex).
  - exact mixture_ex_shape.
  - simpl. lia.
Defined.

(** X7 on [mixture_ex]. *)
Lemma add_then_remove_group_witness :
  ∃ m', Mixture.add_group shared_ex mixture_ex rng0 = Ok ((), m', rng0) ∧
        Mixture.remove_group shared_ex 2 m' = Ok ((), mixture_ex).
Proof.
  apply (add_then_remove_group shared_ex mixture_ex rng0).
  exact mixture_ex_shape.
Defined.

(** X8 on [mixture_added], whose cache is not consistent. *)
Lemma value_mutators_write_closed_forms_witness :
  (∃ m', Mixture.add_value shared_ex 0 0 mixture_added rng0
           = Ok ((), m', rng0) ∧
         cell_consistent shared_ex m' 0 0 ∧
         shift_consistent shared_ex m' 0) ∧
  (∀ group,
     Mixture.groups mixture_added !! 0 = Some group →
     is_Some (SparseCounter.count (Group.counts group) !! 0) →
     ∃ m', Mixture.remove_value shared_ex 0 0 mixture_added rng0
             = Ok ((), m', rng0) ∧
           cell_consistent shared_ex m' 0 0 ∧
           shift_consistent shared_ex m' 0).
Proof.
  apply (value_mutators_write_closed_forms shared_ex 0 0 mixture_added rng0).
  - exact mixture_added_shape.
  - simpl. lia.
  - exact value_0_in_dim.
Defined.



(** X11 on [mixture_ex] in the performance build: a buffer of 3 entries
    for 2 groups. *)
Lemma score_value_long_buffer_witness :
  ∃ accum',
    Mixture.score_value (H := release_collaborators) shared_ex 0
      [1%R; 2%R; 3%R] mixture_ex 0%nat = Ok ((), accum', 0%nat) ∧
    length accum' = 3 ∧
    (∀ g, g < 2 →
       ∃ old score shift,
         [1%R; 2%R; 3%R] !! g = Some old ∧
         score_cell mixture_ex 0 g = Some score ∧
         Mixture.scores_shift mixture_ex !! g = Some shift ∧
         accum' !! g = Some (old + (score - shift))%R) ∧
    (∀ i, 2 ≤ i → accum' !! i = [1%R; 2%R; 3%R] !! i).
Proof.
  apply (score_value_long_buffer (H := release_collaborators) shared_ex 0
           [1%R; 2%R; 3%R] mixture_ex 0%nat).
  - simpl. lia.
  - exact mixture_ex_shape.
  - exact value_0_in_dim.
  - simpl. lia.
Defined.

(** X12 on the groups of [mixture_ex] with an empty cache. *)
Lemma init_then_score_value_witness :
  ∃ m' accum',
    Mixture.init shared_ex (Mixture.mk [group_ex; empty_group] [] []) rng0
      = Ok ((), m', rng0) ∧
    Mixture.score_value shared_ex 0 [1%R; 2%R] m' rng0
      = Ok ((), accum', rng0) ∧
    ∀ g group beta old,
      [group_ex; empty_group] !! g = Some group →
      Shared.betas shared_ex !! 0 = Some beta →
      [1%R; 2%R] !! g = Some old →
      accum' !! g =
        Some (old + (score_of shared_ex beta group 0
                     - shift_of shared_ex group))%R.
Proof.
  apply (init_then_score_value shared_ex 0 [1%R; 2%R]
           (Mixture.mk [group_ex; empty_group] [] []) rng0).
  - exact value_0_in_dim.
  - reflexivity.
Defined.

(** X13 on [group_ex]. *)
Lemma score_value_closed_form_witness :
  score_value shared_ex group_ex 0 rng0
    = Ok (ln (predictive shared_ex group_ex (1 / 2) 0), rng0) ∧
  ∃ s', Scorer.init shared_ex group_ex (Scorer.mk [7%R]) rng0
          = Ok ((), s', rng0) ∧
        Scorer.eval shared_ex 0 s' rng0
          = Ok (ln (predictive shared_ex group_ex (1 / 2) 0), rng0).
Proof.
  apply (score_value_closed_form shared_ex group_ex 0 (1 / 2)%R
           (Scorer.mk [7%R]) rng0).
  - exact group_ex_keys.
  - reflexivity.
Defined.

(** X14 on [group_bad] and on candidate value 7. *)
Lemma score_value_rejects_witness :
  (Scorer.init shared_ex group_bad (Scorer.mk []) rng0
     = Fail AssertionFailed ∧
   score_value shared_ex group_bad 0 rng0 = Fail AssertionFailed) ∧
  score_value shared_ex group_ex 7 rng0 = Fail AssertionFailed.
Proof.
  split.
  - apply (score_value_rejects shared_ex group_bad 0 (Scorer.mk []) rng0)
      with (key := 5).
    + exact group_bad_holds_5.
    + simpl. lia.
  - apply (score_value_rejects shared_ex group_ex 7 (Scorer.mk []) rng0).
    simpl. lia.
Defined.

(** X16 on [group_ex], with the log-gamma recurrence of
    [gamma_collaborators]. *)
Lemma evidence_chain_rule_witness :
  ∃ group' before after gain,
    Group.add_value (H := gamma_collaborators) shared_ex 0 group_ex 0%nat
      = Ok ((), group', 0%nat) ∧
    score_group (H := gamma_collaborators) shared_ex group_ex 0%nat
      = Ok (before, 0%nat) ∧
    score_group (H := gamma_collaborators) shared_ex group' 0%nat
      = Ok (after, 0%nat) ∧
    score_value (H := gamma_collaborators) shared_ex group_ex 0 0%nat
      = Ok (gain, 0%nat) ∧
    after = (before + gain)%R.
Proof.
  apply (evidence_chain_rule (H := gamma_collaborators) shared_ex group_ex 0
           (1 / 2)%R 0%nat).
  - exact lgamma_rec_succ.
  - exact ln_quotient.
  - exact group_ex_keys.
  - reflexivity.
  - reflexivity.
  - reflexivity.
  - change (0 < 4 + of_count 1)%R. unfold of_count. simpl. lra.
  - change (0 < 4 * (1 / 2) + of_count 1)%R. unfold of_count. simpl. lra.
Defined.

(** X17 on [group_ex] and on [group_bad]. *)
Lemma sample_value_draws_twice_witness :
  (∃ buf probs rng1 i rng2,
     Sampler.concentrations shared_ex group_ex = Ok buf ∧
     length buf = 3 ∧
     sample_dirichlet rng0 buf = (probs, rng1) ∧
     sample_discrete rng1 probs = (i, rng2) ∧
     sample_value shared_ex group_ex rng0 = Ok (to_Value i, rng2)) ∧
  (Sampler.concentrations shared_ex group_bad = Fail OutOfBounds ∧
   sample_value shared_ex group_bad rng0 = Fail OutOfBounds).
Proof.
  split.
  - apply (sample_value_draws_twice shared_ex group_ex rng0).
    exact group_ex_keys.
  - apply (sample_value_draws_twice shared_ex group_bad rng0) with (key := 5).
    + exact group_bad_holds_5.
    + simpl. lia.
Defined.

(** X18 on [mixture_ex] and a run with [add_group]. *)
Lemma runs_keep_shape_witness :
  ∃ m', mutate_all shared_ex run_with_add_group mixture_ex rng0
          = Ok (m', rng0) ∧
        cache_shape shared_ex m'.
Proof.
  eexists. split; [reflexivity|].
  refine (proj1 (runs_keep_shape shared_ex run_with_add_group mixture_ex _
                   rng0 rng0 mixture_ex_shape _)).
  reflexivity.
Defined.

(** X19 on [mixture_ex] and a run without [add_group]. *)
Lemma runs_keep_cache_equivalence_witness :
  ∃ m', mutate_all shared_ex run_without_add_group mixture_ex rng0
          = Ok (m', rng0) ∧
        cache_consistent shared_ex m'.
Proof.
  eexists. split; [reflexivity|].
  refine (runs_keep_cache_equivalence shared_ex run_without_add_group
            mixture_ex _ rng0 rng0 mixture_ex_consistent _ _).
  - unfold run_without_add_group. rewrite !elem_of_cons, elem_of_nil.
    intros [?|[?|[?|[?|[?|?]]]]]; done.
  - reflexivity.
Defined.

(** X20 on [group_ex]: the betas of [shared_ex] add up to 1. *)
Lemma Scorer_scores_add_up_witness :
  ∃ s',
    Scorer.init shared_ex group_ex (Scorer.mk []) rng0 = Ok ((), s', rng0) ∧
    Rsum (Scorer.scores s') = 1%R.
Proof.
  destruct (Scorer_scores_add_up shared_ex group_ex (Scorer.mk []) rng0)
    as (s' & Hinit & _ & Hone & _).
  - exact group_ex_keys.
  - change (of_count 1 = of_count 1 + (of_count 0 + 0))%R.
    unfold of_count. simpl. lra.
  - change (4 + of_count 1 ≠ 0)%R. unfold of_count. simpl. lra.
  - exists s'. split; [done|]. apply Hone. simpl. lra.
Defined.

(** C8 at alpha = 4, where the log-gamma is finite. *)
Lemma score_group_empty_zero_or_nan_witness :
  ∃ g0, Ieee.Group_init shared32_ex group_ex rng0 = Ok ((), g0, rng0) ∧
        Ieee.score_group lgamma32 shared32_ex g0 rng0
          = Ok (Ieee.Finite 0, rng0).
Proof.
  destruct (score_group_empty_zero_or_nan lgamma32 shared32_ex group_ex rng0)
    as (g0 & Hinit & Hscore).
  exists g0. split; [exact Hinit|]. rewrite Hscore.
  simpl Ieee.Shared.alpha. unfold lgamma32.
  destruct (Req_EM_T 4 0) as [Heq|_]; [lra|reflexivity].
Defined.
